(** * Crossword generator (task3/generate.py): a shallow embedding

    The constraint-satisfaction engine of [CrosswordCreator] is embedded as
    executable definitions over a small state-and-exception monad:

    - [self.domains] (a dict from variables to sets of words) is a finite map
      from variables to lists of words; a list enumerates a Python set in its
      iteration order, and no theorem below depends on that order;
    - an assignment (a dict in insertion order) is an association list;
    - Python exceptions ([IndexError] of [word[i]], [KeyError] of a dict
      lookup, [ValueError] of [min] on an empty sequence) are values of
      [Outcome]; the [while] loop of [ac3] and the recursion of [backtrack]
      run on fuel, and running dry is the separate outcome [OutOfFuel], which
      is shown not to happen;
    - the state carries a ghost [log] of what happened to the domain store
      (in-place removals, restorations, entries of [backtrack], calls of
      [ac3] made by [backtrack]); nothing ever reads the log.

    The [print] calls of [consistent] only write diagnostics to the terminal
    and are left out.  Of the rendering of a result, [letter_grid] is
    embedded, its 2D array as a list of rows; the methods [print] and [save]
    and the function [main] only do input and output. *)

From stdpp Require Import gmap strings list fin_maps sorting.


(** ** Puzzle model *)

(** Modelled from the spec: crossword.py (the classes [Variable] and
    [Crossword]) is not among the sources.  A slot is identified by
    (row, column, orientation, length). *)
Inductive Direction := ACROSS | DOWN.

Module Var.
Record t := mk { i : nat; j : nat; direction : Direction; length : nat }.
End Var.

#[global] Instance Direction_eq_dec : EqDecision Direction.
Proof. solve_decision. Defined.

#[global] Instance Direction_countable : Countable Direction.
Proof.
  refine (inj_countable' (λ d, match d with ACROSS => false | DOWN => true end)
            (λ b : bool, if b then DOWN else ACROSS) _).
  by intros [].
Defined.

#[global] Instance Var_eq_dec : EqDecision Var.t.
Proof. solve_decision. Defined.

#[global] Instance Var_countable : Countable Var.t.
Proof.
  refine (inj_countable'
            (λ v, (Var.i v, Var.j v, Var.direction v, Var.length v))
            (λ '(a, b, d, n), Var.mk a b d n) _).
  by intros [].
Defined.

(** Modelled from the spec: the Puzzle Model of crossword.py, which is not
    among the sources: the set of slots, the vocabulary, and the overlap
    table, which holds for a pair of slots either nothing or the pair of
    in-word indices of their shared cell. *)
Record Crossword := {
  variables : list Var.t;
  words : list string;
  overlaps : gmap (Var.t * Var.t) (option (nat * nat));
}.

(** [self.crossword.overlaps.get((x, y))]: [None] when the key is absent. *)
Definition overlaps_get (cw : Crossword) (x y : Var.t) : option (nat * nat) :=
  match overlaps cw !! (x, y) with
  | Some overlap => overlap
  | None => None
  end.

(** Modelled from the spec: [crossword.neighbors(var)] of crossword.py, which
    is not among the sources: the slots other than [var] that have an overlap
    with it. *)
Definition neighbors (cw : Crossword) (var : Var.t) : list Var.t :=
  filter (λ v, v ≠ var ∧ is_Some (overlaps_get cw v var)) (variables cw).

(** Modelled from the spec: the grid geometry of crossword.py, which is not
    among the sources.  The cells of a slot run rightwards (ACROSS) or
    downwards (DOWN) from its first cell, and two slots overlap where they
    share a cell. *)
Definition cells (v : Var.t) : list (nat * nat) :=
  (λ k, match Var.direction v with
        | ACROSS => (Var.i v, Var.j v + k)
        | DOWN => (Var.i v + k, Var.j v)
        end) <$> seq 0 (Var.length v).

(** Modelled from the spec: the overlap of two slots (crossword.py is not
    among the sources): the indices of the shared cell in either slot. *)
Definition overlap_of (v1 v2 : Var.t) : option (nat * nat) :=
  match list_find (λ c, c ∈ cells v2) (cells v1) with
  | Some (i, c) => (λ jc, (i, jc.1)) <$> list_find (c =.) (cells v2)
  | None => None
  end.

(** Modelled from the spec: building the Puzzle Model from its slots and its
    vocabulary (crossword.py is not among the sources). *)
Definition make_crossword (vars : list Var.t) (vocabulary : list string) : Crossword :=
  {| variables := vars;
     words := vocabulary;
     overlaps :=
       list_to_map
         (vars ≫= λ v1, (λ v2, ((v1, v2), overlap_of v1 v2)) <$> filter (.≠ v1) vars) |}.

(** What the solver relies on in a Puzzle Model: the slots form a set, and an
    overlap relates two distinct slots of the puzzle, indexes inside both
    words, and is the mirror image of the overlap in the other direction. *)
Definition overlap_ok (cw : Crossword) (key : Var.t * Var.t) (overlap : option (nat * nat)) : Prop :=
  match overlap with
  | None => True
  | Some (i, j) =>
      key.1 ∈ variables cw ∧ key.2 ∈ variables cw ∧ key.1 ≠ key.2 ∧
      i < Var.length key.1 ∧ j < Var.length key.2 ∧
      overlaps cw !! (key.2, key.1) = Some (Some (j, i))
  end.

#[global] Instance overlap_ok_dec cw key overlap : Decision (overlap_ok cw key overlap).
Proof. destruct overlap as [[i j]|]; simpl; apply _. Defined.

Definition wf_crossword (cw : Crossword) : Prop :=
  NoDup (variables cw) ∧ map_Forall (overlap_ok cw) (overlaps cw).

#[global] Instance wf_crossword_dec cw : Decision (wf_crossword cw).
Proof. unfold wf_crossword. apply _. Defined.

(** ** Exceptions, state, and the monad of the solver *)

Inductive exn := IndexError | KeyError | ValueError.

Inductive Outcome (A : Type) : Type :=
  | Ok (a : A)
  | Raise (e : exn)
  | OutOfFuel.
Arguments Ok {A} a.
Arguments Raise {A} e.
Arguments OutOfFuel {A}.

#[global] Instance Outcome_ret : MRet Outcome := λ A a, Ok a.
#[global] Instance Outcome_bind : MBind Outcome := λ A B f m,
  match m with
  | Ok a => f a
  | Raise e => Raise e
  | OutOfFuel => OutOfFuel
  end.

Abbreviation Domains := (gmap Var.t (list string)).

(** A dict in insertion order. *)
Abbreviation Assignment := (list (Var.t * string)).

Inductive Event :=
  | Wrote (D : Domains)                              (* self.domains[x] -= ... *)
  | Restored (D : Domains)                           (* self.domains = saved_domains *)
  | Entered (assignment : Assignment) (D : Domains)  (* backtrack was called *)
  | Propagated (D : Domains) (ok : bool) (D' : Domains). (* ac3() called by backtrack *)

(** [log] is ghost state, newest event first. *)
Record State := mkState { domains : Domains; log : list Event }.

Definition M (A : Type) : Type := State → Outcome (A * State).

#[global] Instance M_ret : MRet M := λ A a s, Ok (a, s).
#[global] Instance M_bind : MBind M := λ A B f m s,
  match m s with
  | Ok (a, s') => f a s'
  | Raise e => Raise e
  | OutOfFuel => OutOfFuel
  end.

Definition lift {A} (o : Outcome A) : M A := λ s,
  match o with
  | Ok a => Ok (a, s)
  | Raise e => Raise e
  | OutOfFuel => OutOfFuel
  end.

Definition raise {A} (e : exn) : M A := λ _, Raise e.
Definition out_of_fuel {A} : M A := λ _, OutOfFuel.
Definition emit (ev : Event) : M unit := λ s, Ok ((), mkState (domains s) (ev :: log s)).

(** [self.domains] as a whole, e.g. for the deep copy [saved_domains]. *)
Definition get_domains : M Domains := λ s, Ok (domains s, s).

(** [self.domains[x]] *)
Definition domain_of (x : Var.t) : M (list string) := λ s,
  match domains s !! x with
  | Some ws => Ok (ws, s)
  | None => Raise KeyError
  end.

(** [self.domains[x] -= words_to_remove] *)
Definition domain_discard (x : Var.t) (words_to_remove : list string) : M unit := λ s,
  match domains s !! x with
  | Some ws =>
      let D' := <[x := list_difference ws words_to_remove]> (domains s) in
      Ok ((), mkState D' (Wrote D' :: log s))
  | None => Raise KeyError
  end.

(** [self.domains = saved_domains] *)
Definition restore (saved_domains : Domains) : M unit := λ s,
  Ok ((), mkState saved_domains (Restored saved_domains :: log s)).

(** [word[i]] for an index that is not negative. *)
Definition getitem (word : string) (i : nat) : Outcome Ascii.ascii :=
  match String.get i word with
  | Some c => Ok c
  | None => Raise IndexError
  end.

(** ** Dict operations on assignments *)

(** [var in assignment] *)
Definition dict_has (assignment : Assignment) (var : Var.t) : bool :=
  bool_decide (var ∈ assignment.*1).

(** [assignment[var]] *)
Definition dict_get (assignment : Assignment) (var : Var.t) : Outcome string :=
  match list_find (λ kv, kv.1 = var) assignment with
  | Some (_, kv) => Ok kv.2
  | None => Raise KeyError
  end.

(** [assignment[var] = value]: an existing key keeps its place, a new one is
    appended. *)
Fixpoint dict_set (assignment : Assignment) (var : Var.t) (value : string) : Assignment :=
  match assignment with
  | [] => [(var, value)]
  | kv :: rest =>
      if decide (kv.1 = var) then (var, value) :: rest
      else kv :: dict_set rest var value
  end.

(** [del assignment[var]] *)
Definition dict_del (assignment : Assignment) (var : Var.t) : Outcome Assignment :=
  if dict_has assignment var
  then Ok (filter (λ kv, kv.1 ≠ var) assignment)
  else Raise KeyError.

(** ** The solver *)

Section CrosswordCreator.
Context (cw : Crossword).

(** [__init__]: every slot starts with a copy of the whole vocabulary. *)
Definition init_domains : Domains :=
  list_to_map ((λ var, (var, words cw)) <$> variables cw).

Definition init_state : State := mkState init_domains [].

(** *** enforce_node_consistency *)

Fixpoint enforce_loop (vars : list Var.t) : M unit :=
  match vars with
  | [] => mret ()
  | var :: rest =>
      ws ← domain_of var;
      let words_to_remove := filter (λ word, String.length word ≠ Var.length var) ws in
      domain_discard var words_to_remove;;
      enforce_loop rest
  end.

Definition enforce_node_consistency : M unit := enforce_loop (variables cw).

(** *** revise *)

(** [any(word_x[i] == word_y[j] for word_y in self.domains[y])] *)
Fixpoint any_agree (word_x : string) (i j : nat) (dy : list string) : Outcome bool :=
  match dy with
  | [] => mret false
  | word_y :: rest =>
      a ← getitem word_x i;
      b ← getitem word_y j;
      if decide (a = b) then mret true else any_agree word_x i j rest
  end.

(** The loop over [self.domains[x]]; its result is [words_to_remove]. *)
Fixpoint revise_loop (y : Var.t) (i j : nat) (dx : list string) : M (list string) :=
  match dx with
  | [] => mret []
  | word_x :: rest =>
      dy ← domain_of y;
      found ← lift (any_agree word_x i j dy);
      words_to_remove ← revise_loop y i j rest;
      mret (if found : bool then words_to_remove else word_x :: words_to_remove)
  end.

Definition revise (x y : Var.t) : M bool :=
  match overlaps_get cw x y with
  | None => mret false
  | Some (i, j) =>
      dx ← domain_of x;
      words_to_remove ← revise_loop y i j dx;
      let revised := bool_decide (words_to_remove ≠ []) in
      if revised then domain_discard x words_to_remove;; mret true
      else mret false
  end.

(** *** ac3 *)

(** All arcs: [(x, y)] for [x] in the variables and [y] among its neighbors. *)
Definition all_arcs : list (Var.t * Var.t) :=
  variables cw ≫= λ x, (λ y, (x, y)) <$> neighbors cw x.

Fixpoint ac3_loop (fuel : nat) (queue : list (Var.t * Var.t)) : M bool :=
  match queue with
  | [] => mret true
  | (x, y) :: queue' =>
      match fuel with
      | 0 => out_of_fuel
      | S fuel' =>
          revised ← revise x y;
          if revised : bool then
            dx ← domain_of x;
            if bool_decide (dx = []) then mret false
            else ac3_loop fuel' (queue' ++ ((λ z, (z, x)) <$> filter (.≠ y) (neighbors cw x)))
          else ac3_loop fuel' queue'
      end
  end.

(** The number of words in all domains. *)
Definition total_size (D : Domains) : nat :=
  sum_list_with (λ kv, length kv.2) (map_to_list D).

(** A revision that changes a domain removes a word and enqueues at most one
    arc per variable, so this many iterations are enough. *)
Definition ac3_fuel (queue : list (Var.t * Var.t)) (D : Domains) : nat :=
  length queue + total_size D * length (variables cw).

Definition ac3 (arcs : option (list (Var.t * Var.t))) : M bool :=
  let queue := match arcs with None => all_arcs | Some arcs => arcs end in
  D ← get_domains;
  ac3_loop (ac3_fuel queue D) queue.


(** *** assignment_complete *)

Definition assignment_complete (assignment : Assignment) : bool :=
  bool_decide (length assignment = length (variables cw)).

(** *** consistent *)

(** The loop over [self.crossword.neighbors(var)]. *)
Fixpoint overlaps_agree (assignment : Assignment) (var : Var.t) (word : string)
    (nbs : list Var.t) : Outcome bool :=
  match nbs with
  | [] => mret true
  | neighbor :: rest =>
      if dict_has assignment neighbor then
        match overlaps_get cw var neighbor with
        | Some (i, j) =>
            a ← getitem word i;
            other ← dict_get assignment neighbor;
            b ← getitem other j;
            if decide (a ≠ b) then mret false
            else overlaps_agree assignment var word rest
        | None => overlaps_agree assignment var word rest
        end
      else overlaps_agree assignment var word rest
  end.

(** The loop over [assignment.items()]; [seen] is the set [words]. *)
Fixpoint consistent_loop (assignment : Assignment) (items : list (Var.t * string))
    (seen : list string) : Outcome bool :=
  match items with
  | [] => mret true
  | (var, word) :: rest =>
      if bool_decide (word ∈ seen) then mret false
      else if bool_decide (String.length word ≠ Var.length var) then mret false
      else
        ok ← overlaps_agree assignment var word (neighbors cw var);
        if ok : bool then consistent_loop assignment rest (word :: seen)
        else mret false
  end.

Definition consistent (assignment : Assignment) : Outcome bool :=
  consistent_loop assignment assignment [].

(** *** order_domain_values *)

Definition lookup_domain (D : Domains) (x : Var.t) : Outcome (list string) :=
  match D !! x with
  | Some ws => Ok ws
  | None => Raise KeyError
  end.

(** The loop over [self.domains[neighbor]] in [count_conflicts]. *)
Fixpoint count_mismatches (word : string) (i j : nat) (dn : list string) : Outcome nat :=
  match dn with
  | [] => mret 0
  | neighbor_word :: rest =>
      a ← getitem word i;
      b ← getitem neighbor_word j;
      n ← count_mismatches word i j rest;
      mret (if decide (a ≠ b) then S n else n)
  end.

Fixpoint count_conflicts (D : Domains) (var : Var.t) (assignment : Assignment)
    (word : string) (nbs : list Var.t) : Outcome nat :=
  match nbs with
  | [] => mret 0
  | neighbor :: rest =>
      if negb (dict_has assignment neighbor) then
        match overlaps_get cw var neighbor with
        | Some (i, j) =>
            dn ← lookup_domain D neighbor;
            c ← count_mismatches word i j dn;
            n ← count_conflicts D var assignment word rest;
            mret (c + n)
        | None => count_conflicts D var assignment word rest
        end
      else count_conflicts D var assignment word rest
  end.

(** [sorted(..., key=...)] computes every key first, in order. *)
Fixpoint with_keys {A K} (key : A → Outcome K) (l : list A) : Outcome (list (K * A)) :=
  match l with
  | [] => mret []
  | a :: rest =>
      k ← key a;
      keyed ← with_keys key rest;
      mret ((k, a) :: keyed)
  end.

(** [sorted] is stable, which determines its result: an element goes in front
    of the later elements whose key is not smaller. *)
Fixpoint insert_by_key {A} (ka : nat * A) (l : list (nat * A)) : list (nat * A) :=
  match l with
  | [] => [ka]
  | kb :: rest =>
      if decide (ka.1 ≤ kb.1) then ka :: l else kb :: insert_by_key ka rest
  end.

Definition sorted_by_key {A} (l : list (nat * A)) : list A :=
  (foldr insert_by_key [] l).*2.

Definition order_domain_values (var : Var.t) (assignment : Assignment) : M (list string) :=
  D ← get_domains;
  ws ← domain_of var;
  keyed ← lift (with_keys (λ word, count_conflicts D var assignment word (neighbors cw var)) ws);
  mret (sorted_by_key keyed).

(** *** select_unassigned_variable *)

(** [(len(self.domains[var]), -len(self.crossword.neighbors(var)))] *)
Definition sort_criteria (D : Domains) (var : Var.t) : Outcome (nat * Z) :=
  ws ← lookup_domain D var;
  mret (length ws, (- Z.of_nat (length (neighbors cw var)))%Z).

(** The order of Python tuples. *)
Definition key_lt (a b : nat * Z) : Prop :=
  a.1 < b.1 ∨ (a.1 = b.1 ∧ (a.2 < b.2)%Z).

(** [min(..., key=...)] keeps the first of the smallest elements. *)
Fixpoint min_loop (D : Domains) (best : Var.t) (best_key : nat * Z)
    (rest : list Var.t) : Outcome Var.t :=
  match rest with
  | [] => mret best
  | v :: rest' =>
      k ← sort_criteria D v;
      if decide (key_lt k best_key) then min_loop D v k rest'
      else min_loop D best best_key rest'
  end.

Definition unassigned (assignment : Assignment) : list Var.t :=
  filter (λ v, ¬ dict_has assignment v) (variables cw).

Definition select_unassigned_variable (assignment : Assignment) : M Var.t :=
  D ← get_domains;
  match unassigned assignment with
  | [] => raise ValueError
  | v :: rest => lift (k ← sort_criteria D v; min_loop D v k rest)
  end.

(** *** backtrack *)

(** The call [self.ac3()] made by [backtrack]. *)
Definition propagate : M bool :=
  D ← get_domains;
  ok ← ac3 None;
  D' ← get_domains;
  emit (Propagated D ok D');;
  mret ok.

(** [backtrack] returns [None] or the dict it was given, which it shares with
    its caller and changes in place.  A result [(returned, assignment')] says
    whether the dict was returned, and what the dict holds when the call
    ends. *)
Section try_values.
Context (rec : Assignment → M (bool * Assignment)) (var : Var.t).

(** The loop over [self.order_domain_values(var, assignment)]. *)
Fixpoint try_values (values : list string) (assignment : Assignment) : M (bool * Assignment) :=
  match values with
  | [] => mret (false, assignment)
  | value :: rest =>
      let new_assignment := dict_set assignment var value in
      ok ← lift (consistent new_assignment);
      if ok : bool then
        saved_domains ← get_domains;
        let assignment := dict_set assignment var value in
        propagated ← propagate;
        '(returned, assignment) ←
          (if propagated : bool then rec assignment else mret (false, assignment));
        (* [if result:] a dict is true when it is not empty *)
        if returned && bool_decide (assignment ≠ []) then mret (true, assignment)
        else
          restore saved_domains;;
          assignment ← lift (dict_del assignment var);
          try_values rest assignment
      else try_values rest assignment
  end.

End try_values.

Fixpoint backtrack (fuel : nat) (assignment : Assignment) : M (bool * Assignment) :=
  match fuel with
  | 0 => out_of_fuel
  | S fuel' =>
      D ← get_domains;
      emit (Entered assignment D);;
      if assignment_complete assignment then mret (true, assignment)
      else
        var ← select_unassigned_variable assignment;
        values ← order_domain_values var assignment;
        try_values (backtrack fuel') var values assignment
  end.

(** *** solve *)

(** A call of [backtrack] nests at most one level per variable. *)
Definition solve : M (option Assignment) :=
  enforce_node_consistency;;
  _ ← ac3 None;
  '(returned, assignment) ← backtrack (S (length (variables cw))) [];
  mret (if returned : bool then Some assignment else None).

Definition run_solve : Outcome (option Assignment * State) := solve init_state.

End CrosswordCreator.

(** ** Rendering *)

(** The 2D array of [letter_grid]: a list of rows, a cell being [None] or a
    letter. *)
Abbreviation Grid := (list (list (option Ascii.ascii))).

(** [letters[i][j] = c], for indices that are not negative. *)
Definition grid_set (letters : Grid) (i j : nat) (c : Ascii.ascii) : Outcome Grid :=
  match letters !! i with
  | Some row =>
      if decide (j < length row) then Ok (<[i := <[j := Some c]> row]> letters)
      else Raise IndexError
  | None => Raise IndexError
  end.

(** The loop over [k in range(len(word))]. *)
Fixpoint write_letters (variable : Var.t) (word : string) (ks : list nat)
    (letters : Grid) : Outcome Grid :=
  match ks with
  | [] => mret letters
  | k :: rest =>
      let direction := Var.direction variable in
      let i := Var.i variable + (if decide (direction = DOWN) then k else 0) in
      let j := Var.j variable + (if decide (direction = ACROSS) then k else 0) in
      c ← getitem word k;
      letters ← grid_set letters i j c;
      write_letters variable word rest letters
  end.

(** The loop over [assignment.items()]. *)
Fixpoint write_words (items : list (Var.t * string)) (letters : Grid) : Outcome Grid :=
  match items with
  | [] => mret letters
  | (variable, word) :: rest =>
      letters ← write_letters variable word (seq 0 (String.length word)) letters;
      write_words rest letters
  end.

(** [letter_grid]; [self.crossword.height] and [self.crossword.width] are
    parameters, crossword.py not being among the sources. *)
Definition letter_grid (height width : nat) (assignment : Assignment) : Outcome Grid :=
  write_words assignment (replicate height (replicate width None)).

(** ** Concrete puzzles *)

(** An ACROSS slot in the second row, and two DOWN slots in the second
    column that cross it at index (1, 1). *)
Definition across3 : Var.t := Var.mk 1 0 ACROSS 3.
Definition down3 : Var.t := Var.mk 0 1 DOWN 3.

Definition down4 : Var.t := Var.mk 0 1 DOWN 4.

(** An ACROSS slot of length 3 and a DOWN slot of length 4 that cross at
    index (1, 1). *)
Definition tall_puzzle : Crossword :=
  make_crossword [across3; down4] ["cat"; "dog"; "coat"]%string.

(** A single slot, and no word of its length in the vocabulary. *)
Definition lonely_puzzle : Crossword := make_crossword [across3] ["hi"]%string.

(** Two crossing slots of length 3, and a vocabulary with a shorter word. *)
Definition mixed_puzzle : Crossword :=
  make_crossword [across3; down3] ["cat"; "a"]%string.

(** The slots of [tall_puzzle] with a vocabulary whose words disagree at the
    crossing. *)
Definition clash_puzzle : Crossword :=
  make_crossword [across3; down4] ["cat"; "burn"]%string.

(** Two crossing slots of length 3, and one word for both. *)
Definition twin_puzzle : Crossword := make_crossword [across3; down3] ["cat"]%string.

(** The solution of [tall_puzzle]. *)
Definition tall_solution : Assignment := [(across3, "dog"); (down4, "coat")]%string.

(** The grid of [tall_solution], of four rows and three columns. *)
Definition tall_grid : Grid :=
  match letter_grid 4 3 tall_solution with
  | Ok letters => letters
  | _ => []
  end.

(** The state in which a run ends, for naming the states of concrete runs. *)
Definition state_after {A} (m : M A) (s : State) : State :=
  match m s with
  | Ok (_, s') => s'
  | _ => s
  end.

(** The state of the tall puzzle after [enforce_node_consistency], and after
    the first [ac3]. *)
Definition tall_checked : State :=
  state_after (enforce_node_consistency tall_puzzle) (init_state tall_puzzle).

Definition tall_propagated : State := state_after (ac3 tall_puzzle None) tall_checked.

(** * Specification *)

(** ** Words and domains *)

(** [w[i] == w'[j]], both indices being in range. *)
Definition agree (i j : nat) (w w' : string) : Prop :=
  ∃ c, String.get i w = Some c ∧ String.get j w' = Some c.

#[global] Instance agree_dec i j w w' : Decision (agree i j w w').
Proof.
  unfold agree.
  destruct (String.get i w) as [a|], (String.get j w') as [b|].
  - destruct (decide (a = b)) as [->|Hne].
    + left. eauto.
    + right. intros (c & [= ->] & [= ->]). done.
  - right. intros (c & _ & [=]).
  - right. intros (c & [=] & _).
  - right. intros (c & [=] & _).
Defined.

(** Some word of [dy] agrees with [w] at the overlap. *)
Definition supported (i j : nat) (dy : list string) (w : string) : Prop :=
  Exists (agree i j w) dy.

(** The words of a slot's domain, none when the slot has no entry. *)
Definition dom_words (D : Domains) (x : Var.t) : list string := default [] (D !! x).

(** The state after [self.domains[x] -= ...] left [ws] in [x]'s domain. *)
Definition wrote (x : Var.t) (ws : list string) (s : State) : State :=
  let D' := <[x := ws]> (domains s) in mkState D' (Wrote D' :: log s).

(** [D'] has the same slots as [D], each with a subset of its words. *)
Definition shrinks (D' D : Domains) : Prop :=
  ∀ v, option_Forall2 (λ ws' ws : list string, ws' ⊆ ws) (D' !! v) (D !! v).

(** ** The history of the domain store *)

(** The domain stores that the log records, newest first. *)
Fixpoint written (l : list Event) : list Domains :=
  match l with
  | [] => []
  | Wrote D :: l => D :: written l
  | Restored D :: l => D :: written l
  | _ :: l => written l
  end.

(** The domain store after the events of [l], starting from [D0]. *)
Definition current (D0 : Domains) (l : list Event) : Domains := hd D0 (written l).

(** Every in-place write shrinks the store it finds, and every restoration
    brings back a store that was current before. *)
Fixpoint log_ok (D0 : Domains) (l : list Event) : Prop :=
  match l with
  | [] => True
  | Wrote D :: l => shrinks D (current D0 l) ∧ log_ok D0 l
  | Restored D :: l => D ∈ written l ++ [D0] ∧ log_ok D0 l
  | _ :: l => log_ok D0 l
  end.

(** What every operation of the solver does to the state: it adds events to
    the log, and they tell the history of the domain store since [s]. *)
Definition evolves (s s' : State) : Prop :=
  ∃ evs, log s' = evs ++ log s ∧ log_ok (domains s) evs ∧
         domains s' = current (domains s) evs.

(** An event that leaves the store [D0] as it is. *)
Definition quiet (D0 : Domains) (ev : Event) : Prop :=
  match ev with
  | Wrote _ => False
  | Restored D => D = D0
  | Entered _ D => D = D0
  | Propagated D ok D' => D = D0 ∧ ok = true ∧ D' = D0
  end.

(** From [s] to [s'] the store stayed the same, and so says the log. *)
Definition quiet_run (s s' : State) : Prop :=
  domains s' = domains s ∧
  ∃ evs, log s' = evs ++ log s ∧ Forall (quiet (domains s)) evs.

(** ** Assignments *)

(** The words of an assignment fit their slots. *)
Definition fits (A : Assignment) : Prop :=
  ∀ v w, (v, w) ∈ A → String.length w = Var.length v.

(** Every word of [Sol] is still in its slot's domain. *)
Definition within (D : Domains) (Sol : Assignment) : Prop :=
  ∀ v w, (v, w) ∈ Sol → w ∈ dom_words D v.

(** The slot [v] has a domain, of words of its length. *)
Definition domain_fits (D : Domains) (v : Var.t) : Prop :=
  match D !! v with
  | Some ws => Forall (λ w, String.length w = Var.length v) ws
  | None => False
  end.

#[global] Instance domain_fits_dec D v : Decision (domain_fits D v).
Proof. unfold domain_fits. destruct (D !! v); apply _. Defined.

Section specification.
Context (cw : Crossword).

(** ** Consistency of the domain store *)

Definition node_consistent (D : Domains) : Prop :=
  ∀ v ws, v ∈ variables cw → D !! v = Some ws →
    Forall (λ w, String.length w = Var.length v) ws.

(** Every slot has a domain, and the store is node-consistent. *)
Definition domains_ok (D : Domains) : Prop :=
  (∀ v, v ∈ variables cw → is_Some (D !! v)) ∧ node_consistent D.

(** The arc from [x] to [y] needs no revision. *)
Definition arc_settled (D : Domains) (x y : Var.t) (i j : nat) : Prop :=
  is_Some (D !! x) ∧ Forall (supported i j (dom_words D y)) (dom_words D x).

(** The loop invariant of [ac3]: an arc is in the queue or needs no revision. *)
Definition arcs_pending (queue : list (Var.t * Var.t)) (D : Domains) : Prop :=
  ∀ x y i j, overlaps_get cw x y = Some (i, j) →
    (x, y) ∈ queue ∨ arc_settled D x y i j.

(** Arc consistency: no arc needs a revision. *)
Definition arcs_settled (D : Domains) : Prop := arcs_pending [] D.

(** ** Constraints on assignments *)

(** The constraints of the puzzle on the slots that an assignment covers:
    distinct words, of the length of their slots, that agree at overlaps. *)
Definition satisfies (A : Assignment) : Prop :=
  NoDup A.*2 ∧
  (∀ v w, (v, w) ∈ A → String.length w = Var.length v) ∧
  (∀ x y wx wy i j, (x, wx) ∈ A → (y, wy) ∈ A →
     overlaps_get cw x y = Some (i, j) → agree i j wx wy).

(** A complete assignment of vocabulary words that meets every constraint. *)
Definition solution (Sol : Assignment) : Prop :=
  NoDup Sol.*1 ∧ (∀ v, v ∈ variables cw ↔ v ∈ Sol.*1) ∧
  (∀ v w, (v, w) ∈ Sol → w ∈ words cw) ∧ satisfies Sol.

(** Two entries of an assignment agree where their slots overlap. *)
Definition entries_agree (xw yw : Var.t * string) : Prop :=
  match overlaps_get cw xw.1 yw.1 with
  | Some (i, j) => agree i j xw.2 yw.2
  | None => True
  end.

(** The assignment [A'] completes [A] with words of the store [D0]. *)
Definition completes (D0 : Domains) (A A' : Assignment) : Prop :=
  (∃ B, A' = A ++ B) ∧ NoDup A'.*1 ∧ A'.*1 ⊆ variables cw ∧
  consistent cw A' = Ok true ∧ length A' = length (variables cw) ∧
  ∀ v w, (v, w) ∈ A' → (v, w) ∈ A ∨ w ∈ dom_words D0 v.

(** The outcome of a call of [backtrack] on the assignment [A]. *)
Definition outcome_ok (D0 : Domains) (A : Assignment) (r : bool * Assignment) : Prop :=
  if r.1 then completes D0 A r.2 else r.2 = A.

(** An operation of the Consistency Engine or of the Search Driver. *)
Inductive solver_step (s s' : State) : Prop :=
  | step_revise x y b : revise cw x y s = Ok (b, s') → solver_step s s'
  | step_ac3 arcs b : ac3 cw arcs s = Ok (b, s') → solver_step s s'
  | step_backtrack fuel A r : backtrack cw fuel A s = Ok (r, s') → solver_step s s'.

End specification.

(** ** What backtrack leaves behind *)

(** What a call of [backtrack] on the dict [A] in the state [s] leaves: a
    returned dict is complete and is [A] with entries added; after [None],
    the dict and the domain store are as the call found them. *)
Definition undone_or_complete (cw : Crossword) (A : Assignment) (s : State)
    (r : bool * Assignment) (s' : State) : Prop :=
  if r.1 then (∃ B, r.2 = A ++ B) ∧ assignment_complete cw r.2 = true
  else r.2 = A ∧ domains s' = domains s.

(** ** The letter grid *)

(** The cell of the [k]-th letter of a slot. *)
Definition cell_at (v : Var.t) (k : nat) : nat * nat :=
  (Var.i v + (if decide (Var.direction v = DOWN) then k else 0),
   Var.j v + (if decide (Var.direction v = ACROSS) then k else 0)).

(** The entry [vw] of an assignment has the letter [c] in the cell [p]. *)
Definition letter_on (vw : Var.t * string) (p : nat * nat) (c : Ascii.ascii) : Prop :=
  ∃ k, String.get k vw.2 = Some c ∧ cell_at vw.1 k = p.

(** Some letter of the entry [vw] is in the cell [p]. *)
Definition covers (vw : Var.t * string) (p : nat * nat) : Prop :=
  ∃ k, k < String.length vw.2 ∧ cell_at vw.1 k = p.

Definition in_grid (height width : nat) (p : nat * nat) : Prop :=
  p.1 < height ∧ p.2 < width.

(** [letters[i][j]] for the cell [p = (i, j)], when it is inside the grid. *)
Definition grid_get (letters : Grid) (p : nat * nat) : option (option Ascii.ascii) :=
  letters !! p.1 ≫= (.!! p.2).

Definition grid_shape (height width : nat) (letters : Grid) : Prop :=
  length letters = height ∧ Forall (λ row, length row = width) letters.

(** The overlap table has every cell that two slots of the puzzle share. *)
Definition overlaps_cover_cells (cw : Crossword) : Prop :=
  ∀ x y kx ky, x ∈ variables cw → y ∈ variables cw → x ≠ y →
    kx < Var.length x → ky < Var.length y → cell_at x kx = cell_at y ky →
    overlaps_get cw x y = Some (kx, ky).

(** Entries that put a letter in the same cell put the same letter there. *)
Definition letters_agree (A : Assignment) : Prop :=
  ∀ vw vw' p c c', vw ∈ A → vw' ∈ A → letter_on vw p c → letter_on vw' p c' → c = c'.

#[global] Instance in_grid_dec height width p : Decision (in_grid height width p).
Proof. unfold in_grid. apply _. Defined.

#[global] Instance covers_dec vw p : Decision (covers vw p).
Proof.
  destruct (decide (Exists (λ k, cell_at vw.1 k = p) (seq 0 (String.length vw.2))))
    as [e|n]; [left|right].
  - apply Exists_exists in e as (k & Hk & Hp). exists k. split; [|done].
    apply elem_of_seq in Hk. lia.
  - intros (k & Hk & Hp). apply n, Exists_exists. exists k. split; [|done].
    apply elem_of_seq. lia.
Defined.

(** ** Deciding the specification on concrete puzzles *)

#[global] Instance entries_agree_dec cw xw yw : Decision (entries_agree cw xw yw).
Proof. unfold entries_agree. destruct (overlaps_get cw xw.1 yw.1) as [[i j]|]; apply _. Defined.

#[global] Instance satisfies_dec cw A : Decision (satisfies cw A).
Proof.
  destruct (decide (NoDup A.*2 ∧
              Forall (λ vw, String.length vw.2 = Var.length vw.1) A ∧
              Forall (λ xw, Forall (entries_agree cw xw) A) A)) as [a|n];
    [left|right]; unfold satisfies.
  - destruct a as (Hnd & Hlen & Hov). split; [done|]. split.
    + intros v w Hin. by apply (proj1 (Forall_forall _ _) Hlen (v, w)).
    + intros x y wx wy i j Hx Hy Hxy.
      pose proof (proj1 (Forall_forall _ _)
        (proj1 (Forall_forall _ _) Hov (x, wx) Hx) (y, wy) Hy) as H.
      unfold entries_agree in H. simpl in H. by rewrite Hxy in H.
  - intros (Hnd & Hlen & Hov). apply n. split; [done|]. split.
    + apply Forall_forall. intros [v w] Hin. by apply Hlen.
    + apply Forall_forall. intros [x wx] Hx. apply Forall_forall. intros [y wy] Hy.
      unfold entries_agree. simpl.
      destruct (overlaps_get cw x y) as [[i j]|] eqn:Hxy; [|done]. by eapply Hov.
Defined.

#[global] Instance solution_dec cw S : Decision (solution cw S).
Proof.
  destruct (decide (NoDup S.*1 ∧
              (variables cw ⊆ S.*1 ∧ S.*1 ⊆ variables cw) ∧
              Forall (λ vw, vw.2 ∈ words cw) S ∧ satisfies cw S)) as [a|n];
    [left|right]; unfold solution.
  - destruct a as (Hnd & [H1 H2] & Hvoc & Hsat). split; [done|]. split; [|split; [|done]].
    + intros v. split; [apply H1|apply H2].
    + intros v w Hin. by apply (proj1 (Forall_forall _ _) Hvoc (v, w)).
  - intros (Hnd & Hcover & Hvoc & Hsat). apply n. split; [done|]. split; [|split; [|done]].
    + split; intros v; apply Hcover.
    + apply Forall_forall. intros [v w] Hin. by eapply Hvoc.
Defined.

#[global] Instance domains_ok_dec cw D : Decision (domains_ok cw D).
Proof.
  destruct (decide (Forall (domain_fits D) (variables cw))) as [f|n];
    [left|right]; unfold domains_ok, node_consistent.
  - rewrite Forall_forall in f. split.
    + intros v Hv. specialize (f v Hv). unfold domain_fits in f. by destruct (D !! v).
    + intros v ws Hv Hws. specialize (f v Hv). unfold domain_fits in f.
      by rewrite Hws in f.
  - intros [Hkeys Hnc]. apply n. apply Forall_forall. intros v Hv.
    unfold domain_fits. destruct (Hkeys v Hv) as [ws Hws]. rewrite Hws. by eapply Hnc.
Defined.

(** * Proofs *)

(** ** Reasoning about the monad *)

Lemma M_bind_Ok {A B} (m : M A) (f : A → M B) s r :
  (m ≫= f) s = Ok r ↔ ∃ a s', m s = Ok (a, s') ∧ f a s' = Ok r.
Proof.
  unfold mbind, M_bind. split.
  - destruct (m s) as [[a s']|e|]; [eauto|done|done].
  - intros (a & s' & -> & Hf). done.
Qed.

Lemma Outcome_bind_Ok {A B} (m : Outcome A) (f : A → Outcome B) r :
  m ≫= f = Ok r ↔ ∃ a, m = Ok a ∧ f a = Ok r.
Proof.
  unfold mbind, Outcome_bind. split.
  - destruct m as [a|e|]; [eauto|done|done].
  - intros (a & -> & Hf). done.
Qed.

Lemma M_ret_Ok {A} (a : A) s r : (mret a : M A) s = Ok r ↔ r = (a, s).
Proof. unfold mret, M_ret. split; [by intros [= <-]|by intros ->]. Qed.

Lemma Outcome_ret_Ok {A} (a b : A) : (mret a : Outcome A) = Ok b ↔ b = a.
Proof. unfold mret, Outcome_ret. split; [by intros [= <-]|by intros ->]. Qed.

Lemma lift_Ok {A} (o : Outcome A) s a s' : lift o s = Ok (a, s') ↔ o = Ok a ∧ s' = s.
Proof.
  unfold lift. destruct o as [b|e|]; split; try done.
  - by intros [= -> ->].
  - by intros [[= ->] ->].
  - by intros [[=] _].
  - by intros [[=] _].
Qed.

Lemma get_domains_Ok s D s' : get_domains s = Ok (D, s') ↔ D = domains s ∧ s' = s.
Proof. unfold get_domains. split; [by intros [= <- <-]|by intros [-> ->]]. Qed.

Lemma domain_of_Ok x s ws s' :
  domain_of x s = Ok (ws, s') ↔ domains s !! x = Some ws ∧ s' = s.
Proof.
  unfold domain_of. destruct (domains s !! x) as [ws'|]; split; try done.
  - by intros [= -> ->].
  - by intros [[= ->] ->].
  - by intros [[=] _].
Qed.

Lemma domain_discard_Ok x rm s u s' :
  domain_discard x rm s = Ok (u, s') ↔
  ∃ ws, domains s !! x = Some ws ∧ s' = wrote x (list_difference ws rm) s.
Proof.
  unfold domain_discard, wrote. destruct (domains s !! x) as [ws|]; split.
  - intros [= <- <-]. eauto.
  - intros (ws' & [= <-] & ->). by destruct u.
  - done.
  - intros (? & [=] & _).
Qed.

Lemma emit_Ok ev s u s' :
  emit ev s = Ok (u, s') ↔ s' = mkState (domains s) (ev :: log s).
Proof. unfold emit. destruct u. split; [by intros [= <-]|by intros ->]. Qed.

Lemma restore_Ok D s u s' :
  restore D s = Ok (u, s') ↔ s' = mkState D (Restored D :: log s).
Proof. unfold restore. destruct u. split; [by intros [= <-]|by intros ->]. Qed.

Lemma getitem_Ok w i c : getitem w i = Ok c ↔ String.get i w = Some c.
Proof. unfold getitem. destruct (String.get i w); split; by intros [= ->]. Qed.

Lemma lookup_domain_Ok D x ws : lookup_domain D x = Ok ws ↔ D !! x = Some ws.
Proof. unfold lookup_domain. destruct (D !! x); split; by intros [= ->]. Qed.

(** Takes the successful run in hypothesis [H] apart, one step at a time. *)
Ltac inv_ok H :=
  let a := fresh "a" in
  let s := fresh "s" in
  let E := fresh "E" in
  lazymatch type of H with
  | @mbind M _ _ _ _ _ _ = Ok _ => apply (proj1 (M_bind_Ok _ _ _ _)) in H as (a & s & E & H)
  | @mbind Outcome _ _ _ _ _ = Ok _ => apply (proj1 (Outcome_bind_Ok _ _ _)) in H as (a & E & H)
  | @mret M _ _ _ _ = Ok _ => apply (proj1 (M_ret_Ok _ _ _)) in H
  | @mret Outcome _ _ _ = Ok _ => apply (proj1 (Outcome_ret_Ok _ _)) in H
  | lift _ _ = Ok _ => apply (proj1 (lift_Ok _ _ _ _)) in H as [H ->]
  | get_domains _ = Ok _ => apply (proj1 (get_domains_Ok _ _ _)) in H as [-> ->]
  | domain_of _ _ = Ok _ => apply (proj1 (domain_of_Ok _ _ _ _)) in H as [H ->]
  | emit _ _ = Ok _ => apply (proj1 (emit_Ok _ _ _ _)) in H
  | restore _ _ = Ok _ => apply (proj1 (restore_Ok _ _ _ _)) in H
  | getitem _ _ = Ok _ => apply (proj1 (getitem_Ok _ _ _)) in H
  | lookup_domain _ _ = Ok _ => apply (proj1 (lookup_domain_Ok _ _ _)) in H
  end.

Section revise.
Context (cw : Crossword).

Lemma any_agree_Ok w i j dy b :
  any_agree w i j dy = Ok b → b = bool_decide (supported i j dy w).
Proof.
  unfold supported. revert b. induction dy as [|w' dy IH]; intros b H; cbn [any_agree] in H.
  - inv_ok H. subst. rewrite bool_decide_eq_false_2; [done|]. by intros ?%Exists_nil.
  - inv_ok H. inv_ok H. inv_ok E. inv_ok E0.
    destruct (decide (a = a0)) as [->|Hne].
    + inv_ok H. subst. symmetry. apply bool_decide_eq_true_2.
      apply Exists_cons_hd. exists a0. done.
    + rewrite (IH _ H). apply bool_decide_ext. rewrite Exists_cons.
      split; [tauto|]. intros [(c & ? & ?)|?]; [congruence|done].
Qed.

Lemma revise_loop_Ok y i j dx s rm s' :
  revise_loop y i j dx s = Ok (rm, s') →
  s' = s ∧ rm = filter (λ w, ¬ supported i j (dom_words (domains s) y) w) dx.
Proof.
  revert rm s'. induction dx as [|w dx IH]; intros rm s' H; cbn [revise_loop] in H.
  - inv_ok H. by injection H as -> ->.
  - inv_ok H. inv_ok E. inv_ok H. inv_ok E0. inv_ok H.
    apply IH in E1 as [-> ->]. inv_ok H. injection H as -> ->. split; [done|].
    apply any_agree_Ok in E0. unfold dom_words. rewrite E. simpl.
    rewrite filter_cons. subst a0.
    destruct (decide (¬ supported i j a w)) as [Hn|Hn].
    + by rewrite bool_decide_eq_false_2.
    + by rewrite bool_decide_eq_true_2 by (by apply dec_stable).
Qed.


Lemma list_difference_filter {A} `{EqDecision A} (P : A → Prop) `{∀ x, Decision (P x)}
    (l k : list A) :
  (∀ x, x ∈ l → x ∈ k ↔ ¬ P x) → list_difference l k = filter P l.
Proof.
  induction l as [|x l IH]; intros Hk; [done|]. cbn [list_difference].
  rewrite filter_cons, IH by (intros z Hz; apply Hk; by right).
  destruct (decide_rel elem_of x k) as [Hin|Hin].
  - apply Hk in Hin; [|by left]. by rewrite decide_False.
  - rewrite decide_True; [done|]. apply dec_stable. intros HP. apply Hin, Hk; [by left|done].
Qed.

Lemma filter_eq_self {A} (P : A → Prop) `{∀ x, Decision (P x)} (l : list A) :
  filter P l = l ↔ Forall P l.
Proof.
  split.
  - intros Heq. apply Forall_forall. intros x Hx. rewrite <-Heq in Hx.
    by apply list_elem_of_filter in Hx as [? _].
  - induction 1 as [|x l HP _ IH]; [done|]. by rewrite filter_cons_True, IH.
Qed.

Lemma filter_not_nil {A} (P : A → Prop) `{∀ x, Decision (P x)} (l : list A) :
  filter (λ x, ¬ P x) l = [] ↔ filter P l = l.
Proof.
  rewrite filter_eq_self. split.
  - intros Hnil. apply Forall_forall. intros x Hx. apply dec_stable. intros HP.
    by eapply (filter_nil_not_elem_of (λ x, ¬ P x)).
  - intros HP. induction HP as [|x l HPx _ IH]; [done|].
    by rewrite filter_cons_False by (intros ?; done).
Qed.

Lemma revise_Ok x y s b s' :
  revise cw x y s = Ok (b, s') →
  match overlaps_get cw x y with
  | None => b = false ∧ s' = s
  | Some (i, j) =>
      ∃ dx, domains s !! x = Some dx ∧
        let keep := filter (supported i j (dom_words (domains s) y)) dx in
        if b then keep ≠ dx ∧ s' = wrote x keep s else keep = dx ∧ s' = s
  end.
Proof.
  unfold revise. destruct (overlaps_get cw x y) as [[i j]|]; intros H.
  - inv_ok H. inv_ok E. inv_ok H. apply revise_loop_Ok in E0 as [-> ->].
    exists a. split; [done|]. cbn zeta.
    set (rm := filter _ a) in *. case_bool_decide as Hrm.
    + inv_ok H. inv_ok H. injection H as -> ->.
      apply domain_discard_Ok in E0 as (ws & Hws & ->).
      assert (ws = a) as -> by congruence.
      split.
      * intros Heq. by apply Hrm, filter_not_nil.
      * f_equal. apply list_difference_filter. intros w Hw. unfold rm.
        rewrite list_elem_of_filter. tauto.
    + inv_ok H. injection H as -> ->. split; [|done].
      apply filter_not_nil. exact Hrm.
  - inv_ok H. by injection H as -> ->.
Qed.

End revise.

(** ** Lemmas on stores and logs *)

#[global] Instance shrinks_preorder : PreOrder shrinks.
Proof.
  split.
  - intros D v. destruct (D !! v); by constructor.
  - intros D1 D2 D3 H12 H23 v. specialize (H12 v). specialize (H23 v).
    destruct H12 as [ws1 ws2 H12|]; inversion H23; subst; constructor.
    by etrans.
Qed.

Lemma shrinks_insert (D : Domains) x dx ws :
  D !! x = Some dx → ws ⊆ dx → shrinks (<[x := ws]> D) D.
Proof.
  intros Hx Hsub v. destruct (decide (x = v)) as [<-|Hne].
  - rewrite lookup_insert_eq, Hx. by constructor.
  - rewrite lookup_insert_ne by done. destruct (D !! v); by constructor.
Qed.

Lemma shrinks_lookup D' D v ws :
  shrinks D' D → D !! v = Some ws → ∃ ws', D' !! v = Some ws' ∧ ws' ⊆ ws.
Proof. intros H Hv. specialize (H v). rewrite Hv in H. inversion H; subst. eauto. Qed.

Lemma shrinks_lookup_inv D' D v ws' :
  shrinks D' D → D' !! v = Some ws' → ∃ ws, D !! v = Some ws ∧ ws' ⊆ ws.
Proof. intros H Hv. specialize (H v). rewrite Hv in H. inversion H; subst. eauto. Qed.

Lemma shrinks_dom_words D' D v : shrinks D' D → dom_words D' v ⊆ dom_words D v.
Proof.
  intros H. specialize (H v). unfold dom_words. by destruct H.
Qed.

Lemma list_difference_subseteq {A} `{EqDecision A} (l k : list A) : list_difference l k ⊆ l.
Proof. intros x. rewrite list_elem_of_difference. tauto. Qed.

Lemma node_consistent_shrinks cw D' D :
  shrinks D' D → node_consistent cw D → node_consistent cw D'.
Proof.
  intros Hsh Hnc v ws' Hv Hws'.
  destruct (shrinks_lookup_inv _ _ _ _ Hsh Hws') as (ws & Hws & Hsub).
  eapply Forall_forall. intros w Hw. specialize (Hnc v ws Hv Hws).
  rewrite Forall_forall in Hnc. auto.
Qed.

Lemma domains_ok_shrinks cw D' D :
  shrinks D' D → domains_ok cw D → domains_ok cw D'.
Proof.
  intros Hsh [Hkeys Hnc]. split; [|by eapply node_consistent_shrinks].
  intros v Hv. destruct (Hkeys v Hv) as [ws Hws].
  destruct (shrinks_lookup _ _ _ _ Hsh Hws) as (ws' & -> & _). eauto.
Qed.

Lemma written_app l1 l2 : written (l1 ++ l2) = written l1 ++ written l2.
Proof.
  induction l1 as [|[] l1 IH]; simpl; by rewrite ?IH.
Qed.

Lemma current_elem_of D0 l : current D0 l ∈ written l ++ [D0].
Proof. unfold current. destruct (written l); simpl; by left. Qed.

Lemma written_suffix D0 l l' D :
  l `suffix_of` l' → D ∈ written l ++ [D0] → D ∈ written l' ++ [D0].
Proof.
  intros [k ->] H. rewrite written_app, <-(assoc_L (++)). apply elem_of_app. by right.
Qed.

Lemma current_app D0 l2 l1 : current D0 (l2 ++ l1) = current (current D0 l1) l2.
Proof. unfold current. rewrite written_app. by destruct (written l2). Qed.

Lemma log_ok_app D0 l2 l1 :
  log_ok D0 l1 → log_ok (current D0 l1) l2 → log_ok D0 (l2 ++ l1).
Proof.
  intros H1. induction l2 as [|ev l2 IH]; [done|]. destruct ev as [D|D| |]; simpl; try done.
  - intros [Hsh H2]. split; [|by apply IH]. by rewrite current_app.
  - intros [Hin H2]. split; [|by apply IH].
    rewrite written_app, <-(assoc_L (++)). apply elem_of_app.
    apply elem_of_app in Hin as [Hin| ->%list_elem_of_singleton]; [by left|right].
    apply current_elem_of.
Qed.

Lemma log_ok_written D0 l :
  log_ok D0 l → Forall (λ D, shrinks D D0) (written l).
Proof.
  induction l as [|ev l IH]; simpl; [by constructor|].
  assert (Forall (λ D, shrinks D D0) (written l) →
          Forall (λ D, shrinks D D0) (written l ++ [D0])) as Hall.
  { intros H. apply Forall_app. split; [done|]. by repeat constructor. }
  destruct ev as [D|D| |]; try done.
  - intros [Hsh Hl]. specialize (IH Hl). constructor; [|done].
    etrans; [done|]. eapply (proj1 (Forall_forall _ _) (Hall IH)), current_elem_of.
  - intros [Hin Hl]. specialize (IH Hl). constructor; [|done].
    by eapply (proj1 (Forall_forall _ _) (Hall IH)).
Qed.

#[global] Instance evolves_preorder : PreOrder evolves.
Proof.
  split.
  - intros s. by exists [].
  - intros s1 s2 s3 (evs1 & L12 & H12 & D12) (evs2 & L23 & H23 & D23).
    exists (evs2 ++ evs1). split; [by rewrite L23, L12, (assoc_L (++))|].
    rewrite D12 in H23, D23. split; [by apply log_ok_app|by rewrite current_app].
Qed.

Lemma evolves_written s s' :
  evolves s s' →
  ∃ evs, log s' = evs ++ log s ∧ Forall (λ D, shrinks D (domains s)) (written evs).
Proof. intros (evs & Hlog & Hok & _). exists evs. split; [done|]. by apply log_ok_written. Qed.

Lemma evolves_shrinks s s' : evolves s s' → shrinks (domains s') (domains s).
Proof.
  intros (evs & _ & Hok & ->). apply log_ok_written in Hok.
  assert (Forall (λ D, shrinks D (domains s)) (written evs ++ [domains s])) as Hall.
  { apply Forall_app. split; [done|]. by repeat constructor. }
  eapply (proj1 (Forall_forall _ _) Hall), current_elem_of.
Qed.

Lemma evolves_wrote x dx ws s :
  domains s !! x = Some dx → ws ⊆ dx → evolves s (wrote x ws s).
Proof.
  intros Hx Hsub. exists [Wrote (<[x := ws]> (domains s))]. split; [done|].
  split; [|done]. split; [|done]. by eapply shrinks_insert.
Qed.

Lemma evolves_emit_entered A D s :
  evolves s (mkState (domains s) (Entered A D :: log s)).
Proof. by exists [Entered A D]. Qed.

Lemma evolves_emit_propagated D b D' s :
  evolves s (mkState (domains s) (Propagated D b D' :: log s)).
Proof. by exists [Propagated D b D']. Qed.

(** Restoring a snapshot that was taken at [s0]. *)
Lemma evolves_restore s0 s :
  evolves s0 s → evolves s0 (mkState (domains s0) (Restored (domains s0) :: log s)).
Proof.
  intros (evs & Hlog & Hok & Hdom). exists (Restored (domains s0) :: evs).
  split; [by simpl; rewrite Hlog|]. split; [|done]. split; [|done].
  apply elem_of_app. right. by left.
Qed.

(** ** The puzzle model *)

Lemma wf_overlap cw x y i j :
  wf_crossword cw → overlaps_get cw x y = Some (i, j) →
  x ∈ variables cw ∧ y ∈ variables cw ∧ x ≠ y ∧
  i < Var.length x ∧ j < Var.length y ∧ overlaps_get cw y x = Some (j, i).
Proof.
  intros [_ Hall] H. unfold overlaps_get in *.
  destruct (overlaps cw !! (x, y)) as [o|] eqn:E; [|done]. subst o.
  apply (map_Forall_lookup_1 _ _ _ _ Hall) in E. simpl in E.
  destruct E as (? & ? & ? & ? & ? & E). by rewrite E.
Qed.

Lemma elem_of_neighbors cw x y :
  y ∈ neighbors cw x ↔ y ∈ variables cw ∧ y ≠ x ∧ is_Some (overlaps_get cw y x).
Proof. unfold neighbors. rewrite list_elem_of_filter. tauto. Qed.

Lemma wf_neighbors cw x y i j :
  wf_crossword cw → overlaps_get cw x y = Some (i, j) →
  y ∈ neighbors cw x ∧ x ∈ neighbors cw y.
Proof.
  intros Hwf H. destruct (wf_overlap _ _ _ _ _ Hwf H) as (Hx & Hy & Hne & _ & _ & H').
  rewrite !elem_of_neighbors. rewrite H, H'. eauto 10.
Qed.

Lemma elem_of_all_arcs cw x y :
  (x, y) ∈ all_arcs cw ↔ x ∈ variables cw ∧ y ∈ neighbors cw x.
Proof.
  unfold all_arcs. rewrite list_elem_of_bind. split.
  - intros (x' & Hin & Hx'). apply list_elem_of_fmap in Hin as (y' & [= -> ->] & Hy'). done.
  - intros [Hx Hy]. exists x. split; [|done]. apply list_elem_of_fmap. eauto.
Qed.

Lemma neighbors_length cw x : length (neighbors cw x) ≤ length (variables cw).
Proof. apply length_filter. Qed.

Lemma dom_words_insert_eq (D : Domains) x ws : dom_words (<[x := ws]> D) x = ws.
Proof. unfold dom_words. by rewrite lookup_insert_eq. Qed.

Lemma dom_words_insert_ne (D : Domains) x v ws :
  x ≠ v → dom_words (<[x := ws]> D) v = dom_words D v.
Proof. intros. unfold dom_words. by rewrite lookup_insert_ne. Qed.

Lemma dom_words_Some (D : Domains) x ws : D !! x = Some ws → dom_words D x = ws.
Proof. unfold dom_words. by intros ->. Qed.

Lemma agree_sym i j w w' : agree i j w w' → agree j i w' w.
Proof. intros (c & ? & ?). by exists c. Qed.

Lemma get_is_Some i w : i < String.length w → is_Some (String.get i w).
Proof.
  revert i. induction w as [|c w IH]; intros i Hi; simpl in *; [lia|].
  destruct i as [|i]; [eauto|]. apply IH. lia.
Qed.

(** ** revise and enforce_node_consistency *)

Section consistency.
Context (cw : Crossword).

Lemma revise_evolves x y s b s' : revise cw x y s = Ok (b, s') → evolves s s'.
Proof.
  intros H. apply revise_Ok in H.
  destruct (overlaps_get cw x y) as [[i j]|].
  - destruct H as (dx & Hx & H). cbn zeta in H. destruct b.
    + destruct H as [_ ->]. eapply evolves_wrote; [done|]. apply list_subseteq_filter.
    + by destruct H as [_ ->].
  - by destruct H as [_ ->].
Qed.

Lemma enforce_loop_evolves vars s u s' :
  enforce_loop vars s = Ok (u, s') → evolves s s'.
Proof.
  revert s. induction vars as [|var vars IH]; intros s H; cbn [enforce_loop] in H.
  - inv_ok H. by injection H as -> ->.
  - inv_ok H. inv_ok E. inv_ok H.
    apply domain_discard_Ok in E0 as (ws & Hws & ->).
    etrans; [|by eapply IH]. eapply evolves_wrote; [done|]. apply list_difference_subseteq.
Qed.

Lemma enforce_loop_lengths vars s u s' v ws :
  enforce_loop vars s = Ok (u, s') → v ∈ vars → domains s' !! v = Some ws →
  Forall (λ w, String.length w = Var.length v) ws.
Proof.
  revert s. induction vars as [|var vars IH]; intros s H Hv Hws; cbn [enforce_loop] in H.
  - by apply elem_of_nil in Hv.
  - inv_ok H. inv_ok E. inv_ok H.
    apply domain_discard_Ok in E0 as (ws0 & Hws0 & ->).
    assert (ws0 = a) as -> by congruence.
    apply elem_of_cons in Hv as [->|Hv]; [|by eapply IH].
    apply enforce_loop_evolves, evolves_shrinks in H. rename H into Hsh.
    destruct (shrinks_lookup_inv _ _ _ _ Hsh Hws) as (ws1 & Hws1 & Hsub).
    unfold wrote in Hws1. simpl in Hws1. rewrite lookup_insert_eq in Hws1.
    injection Hws1 as <-. apply Forall_forall. intros w Hw.
    apply Hsub, list_elem_of_difference in Hw as [Hw Hnot].
    apply dec_stable. intros Hlen. apply Hnot, list_elem_of_filter. done.
Qed.

Lemma enforce_node_consistency_Ok s u s' :
  enforce_node_consistency cw s = Ok (u, s') →
  evolves s s' ∧ node_consistent cw (domains s').
Proof.
  intros H. split; [by eapply enforce_loop_evolves|].
  intros v ws Hv Hws. by eapply enforce_loop_lengths.
Qed.

End consistency.

(** ** ac3 *)

Lemma M_bind_run {A B} (m : M A) (f : A → M B) s a s' :
  m s = Ok (a, s') → (m ≫= f) s = f a s'.
Proof. unfold mbind, M_bind. by intros ->. Qed.

Lemma Outcome_bind_run {A B} (m : Outcome A) (f : A → Outcome B) a :
  m = Ok a → m ≫= f = f a.
Proof. by intros ->. Qed.

Lemma domain_of_run x s ws : domains s !! x = Some ws → domain_of x s = Ok (ws, s).
Proof. unfold domain_of. by intros ->. Qed.

Lemma lift_run {A} (o : Outcome A) a s : o = Ok a → lift o s = Ok (a, s).
Proof. by intros ->. Qed.

Section ac3.
Context (cw : Crossword).

Lemma ac3_unfold arcs s :
  ac3 cw arcs s =
  let queue := match arcs with None => all_arcs cw | Some arcs => arcs end in
  ac3_loop cw (ac3_fuel cw queue (domains s)) queue s.
Proof. done. Qed.

Lemma ac3_loop_evolves fuel q s b s' :
  ac3_loop cw fuel q s = Ok (b, s') → evolves s s'.
Proof.
  revert q s. induction fuel as [|fuel IH]; intros [|[x y] q] s H; cbn [ac3_loop] in H.
  - inv_ok H. by injection H as -> ->.
  - done.
  - inv_ok H. by injection H as -> ->.
  - inv_ok H. apply revise_evolves in E. destruct a.
    + inv_ok H. inv_ok E0. case_bool_decide.
      * inv_ok H. by injection H as -> ->.
      * etrans; [done|]. by eapply IH.
    + etrans; [done|]. by eapply IH.
Qed.

Lemma ac3_evolves arcs s b s' : ac3 cw arcs s = Ok (b, s') → evolves s s'.
Proof. rewrite ac3_unfold. apply ac3_loop_evolves. Qed.

Lemma all_arcs_pending D : wf_crossword cw → arcs_pending cw (all_arcs cw) D.
Proof.
  intros Hwf x y i j Hxy. left. apply elem_of_all_arcs.
  destruct (wf_overlap _ _ _ _ _ Hwf Hxy) as (Hx & _).
  destruct (wf_neighbors _ _ _ _ _ Hwf Hxy) as [Hy _]. done.
Qed.

Lemma revise_pending x y q s b s' :
  wf_crossword cw →
  revise cw x y s = Ok (b, s') → arcs_pending cw ((x, y) :: q) (domains s) →
  arcs_pending cw
    (if b then q ++ ((λ z, (z, x)) <$> filter (.≠ y) (neighbors cw x)) else q)
    (domains s').
Proof.
  intros Hwf H Hp. apply revise_Ok in H.
  destruct (overlaps_get cw x y) as [[i j]|] eqn:Hxy.
  - destruct H as (dx & Hdx & H). cbn zeta in H.
    destruct (wf_overlap _ _ _ _ _ Hwf Hxy) as (Hx & Hy & Hne & _ & _ & Hyx).
    destruct b; destruct H as [Hkeep ->].
    + intros u v i' j' Huv. unfold wrote; simpl.
      set (keep := filter (supported i j (dom_words (domains s) y)) dx) in *.
      destruct (wf_overlap _ _ _ _ _ Hwf Huv) as (Hu & Hv & Hneuv & _ & _ & Hvu).
      destruct (decide (u = x)) as [->|Hux].
      * destruct (decide (v = y)) as [->|Hvy].
        -- right. rewrite Hxy in Huv. injection Huv as <- <-. split.
           { rewrite lookup_insert_eq. eauto. }
           rewrite dom_words_insert_eq, dom_words_insert_ne by done.
           apply Forall_forall. intros w Hw. by apply list_elem_of_filter in Hw as [? _].
        -- destruct (Hp x v i' j' Huv) as [Hin|[_ Hall]].
           ++ left. apply elem_of_app. left.
              apply elem_of_cons in Hin as [[= ?]|?]; done.
           ++ right. split; [rewrite lookup_insert_eq; eauto|].
              rewrite dom_words_insert_eq, dom_words_insert_ne by done.
              rewrite (dom_words_Some _ _ _ Hdx) in Hall.
              rewrite Forall_forall in Hall. apply Forall_forall. intros w Hw.
              apply Hall. by apply list_elem_of_filter in Hw as [_ ?].
      * destruct (decide (v = x)) as [->|Hvx].
        -- destruct (decide (u = y)) as [->|Huy].
           ++ destruct (Hp y x i' j' Huv) as [Hin|[Hsome Hall]].
              ** left. apply elem_of_app. left.
                 apply elem_of_cons in Hin as [[= ? ?]|?]; done.
              ** right. rewrite Hyx in Huv. injection Huv as <- <-. split.
                 { by rewrite lookup_insert_ne. }
                 rewrite dom_words_insert_eq, dom_words_insert_ne by done.
                 rewrite (dom_words_Some _ _ _ Hdx) in Hall.
                 rewrite Forall_forall in Hall. apply Forall_forall. intros w' Hw'.
                 destruct (proj1 (Exists_exists _ _) (Hall w' Hw')) as (w & Hw & Hagree).
                 apply Exists_exists. exists w. split; [|done].
                 apply list_elem_of_filter. split; [|done].
                 apply Exists_exists. exists w'. split; [done|]. by apply agree_sym.
           ++ left. apply elem_of_app. right. apply list_elem_of_fmap.
              exists u. split; [done|]. apply list_elem_of_filter. split; [done|].
              by destruct (wf_neighbors _ _ _ _ _ Hwf Huv) as [_ ?].
        -- destruct (Hp u v i' j' Huv) as [Hin|[Hsome Hall]].
           ++ left. apply elem_of_app. left.
              apply elem_of_cons in Hin as [[= ? ?]|?]; done.
           ++ right. split; [by rewrite lookup_insert_ne|].
              by rewrite !dom_words_insert_ne.
    + intros u v i' j' Huv. destruct (Hp u v i' j' Huv) as [Hin|?]; [|by right].
      apply elem_of_cons in Hin as [[= -> ->]|?]; [|by left]. right.
      rewrite Hxy in Huv. injection Huv as <- <-. split; [eauto|].
      rewrite (dom_words_Some _ _ _ Hdx). by apply (proj1 (filter_eq_self _ _)).
  - destruct H as [-> ->]. intros u v i' j' Huv.
    destruct (Hp u v i' j' Huv) as [Hin|?]; [|by right].
    apply elem_of_cons in Hin as [[= -> ->]|?]; [congruence|by left].
Qed.

Lemma ac3_loop_settles fuel q s s' :
  wf_crossword cw →
  ac3_loop cw fuel q s = Ok (true, s') → arcs_pending cw q (domains s) →
  arcs_settled cw (domains s').
Proof.
  intros Hwf. revert q s.
  induction fuel as [|fuel IH]; intros [|[x y] q] s H Hp; cbn [ac3_loop] in H.
  - inv_ok H. by injection H as ->.
  - done.
  - inv_ok H. by injection H as ->.
  - inv_ok H. pose proof (revise_pending _ _ _ _ _ _ Hwf E Hp) as Hp'. destruct a.
    + inv_ok H. inv_ok E0. case_bool_decide.
      * inv_ok H. done.
      * by eapply IH.
    + by eapply IH.
Qed.

Lemma ac3_settles s s' :
  wf_crossword cw → ac3 cw None s = Ok (true, s') → arcs_settled cw (domains s').
Proof.
  intros Hwf H. rewrite ac3_unfold in H.
  eapply ac3_loop_settles; [done..|]. by apply all_arcs_pending.
Qed.

End ac3.

(** ** Termination and absence of exceptions for revise and ac3 *)

Lemma total_size_insert (D : Domains) x dx ws :
  D !! x = Some dx → total_size (<[x := ws]> D) + length dx = total_size D + length ws.
Proof.
  intros Hx. unfold total_size. rewrite <-(insert_delete_eq D x ws).
  rewrite map_to_list_insert by apply lookup_delete_eq.
  rewrite <-(map_to_list_delete D x dx Hx). simpl. lia.
Qed.

Lemma length_filter_ne {A} (P : A → Prop) `{∀ x, Decision (P x)} (l : list A) :
  filter P l ≠ l → length (filter P l) < length l.
Proof.
  intros Hne. rewrite filter_eq_self in Hne.
  apply not_Forall_Exists in Hne; [|apply _].
  apply Exists_exists in Hne as (x & Hx & HP). by eapply length_filter_lt.
Qed.

Section totality.
Context (cw : Crossword).

Lemma any_agree_total w i j dy :
  is_Some (String.get i w) → Forall (λ w', is_Some (String.get j w')) dy →
  ∃ b, any_agree w i j dy = Ok b.
Proof.
  intros [a Ha] Hdy. induction Hdy as [|w' dy [b Hb] _ [r IH]]; cbn [any_agree].
  - by exists false.
  - rewrite (Outcome_bind_run _ _ _ (proj2 (getitem_Ok _ _ _) Ha)).
    rewrite (Outcome_bind_run _ _ _ (proj2 (getitem_Ok _ _ _) Hb)).
    destruct (decide (a = b)); [by exists true|by exists r].
Qed.

Lemma any_agree_found w i j dy :
  supported i j dy w → Forall (λ w', is_Some (String.get j w')) dy →
  any_agree w i j dy = Ok true.
Proof.
  intros Hsup Hdy. destruct (any_agree_total w i j dy) as [b Hb]; [|done|].
  - apply Exists_exists in Hsup as (w' & _ & c & Hc & _). eauto.
  - rewrite Hb. f_equal. rewrite (any_agree_Ok _ _ _ _ _ Hb). by apply bool_decide_eq_true_2.
Qed.

Lemma revise_loop_total y i j dx dy s :
  domains s !! y = Some dy →
  Forall (λ w, is_Some (String.get i w)) dx →
  Forall (λ w', is_Some (String.get j w')) dy →
  ∃ rm, revise_loop y i j dx s = Ok (rm, s).
Proof.
  intros Hy Hdx Hdy. induction Hdx as [|w dx Hw _ [rm IH]]; cbn [revise_loop].
  - by exists [].
  - destruct (any_agree_total w i j dy) as [b Hb]; [done..|].
    rewrite (M_bind_run _ _ _ _ _ (domain_of_run _ _ _ Hy)).
    rewrite (M_bind_run _ _ _ _ _ (lift_run _ _ s Hb)).
    rewrite (M_bind_run _ _ _ _ _ IH). eauto.
Qed.

Lemma domains_ok_indexable D x y i j ws :
  wf_crossword cw → domains_ok cw D → overlaps_get cw x y = Some (i, j) →
  D !! x = Some ws → Forall (λ w, is_Some (String.get i w)) ws.
Proof.
  intros Hwf [_ Hnc] Hxy Hws.
  destruct (wf_overlap _ _ _ _ _ Hwf Hxy) as (Hx & _ & _ & Hi & _).
  eapply Forall_impl; [by eapply Hnc|]. intros w Hw. apply get_is_Some. simpl in Hw. lia.
Qed.

Lemma revise_total x y s :
  wf_crossword cw → domains_ok cw (domains s) → ∃ b s', revise cw x y s = Ok (b, s').
Proof.
  intros Hwf Hok. unfold revise.
  destruct (overlaps_get cw x y) as [[i j]|] eqn:Hxy; [|by eexists _, _].
  destruct (wf_overlap _ _ _ _ _ Hwf Hxy) as (Hx & Hy & _ & _ & _ & Hyx).
  destruct (proj1 Hok x Hx) as [dx Hdx]. destruct (proj1 Hok y Hy) as [dy Hdy].
  destruct (revise_loop_total y i j dx dy s) as [rm Hrm]; [done|..].
  { by eapply domains_ok_indexable. }
  { by eapply domains_ok_indexable. }
  rewrite (M_bind_run _ _ _ _ _ (domain_of_run _ _ _ Hdx)).
  rewrite (M_bind_run _ _ _ _ _ Hrm). cbn zeta. case_bool_decide; [|by eexists _, _].
  eexists _, _. erewrite M_bind_run; [done|].
  unfold domain_discard. by rewrite Hdx.
Qed.

Lemma ac3_loop_total fuel q s :
  wf_crossword cw → domains_ok cw (domains s) →
  ac3_fuel cw q (domains s) ≤ fuel →
  ∃ b s', ac3_loop cw fuel q s = Ok (b, s').
Proof.
  intros Hwf. revert q s.
  induction fuel as [|fuel IH]; intros [|[x y] q] s Hok Hfuel; cbn [ac3_loop].
  - by eexists _, _.
  - unfold ac3_fuel in Hfuel. simpl in Hfuel. lia.
  - by eexists _, _.
  - destruct (revise_total x y s Hwf Hok) as (b & s1 & Hrev).
    rewrite (M_bind_run _ _ _ _ _ Hrev).
    pose proof (evolves_shrinks _ _ (revise_evolves _ _ _ _ _ _ Hrev)) as Hsh.
    pose proof (revise_Ok _ _ _ _ _ _ Hrev) as Hspec. destruct b.
    + destruct (overlaps_get cw x y) as [[i j]|]; [|by destruct Hspec].
      destruct Hspec as (dx & Hdx & Hspec). cbn zeta in Hspec.
      destruct Hspec as [Hkeep ->].
      set (keep := filter (supported i j (dom_words (domains s) y)) dx) in *.
      erewrite M_bind_run; [|apply domain_of_run; apply lookup_insert_eq].
      case_bool_decide; [by eexists _, _|].
      apply IH; [by eapply domains_ok_shrinks|].
      unfold ac3_fuel in *. simpl in *.
      pose proof (total_size_insert _ _ _ keep Hdx) as Hsize.
      pose proof (length_filter_ne _ _ Hkeep) as Hlt. fold keep in Hlt.
      rewrite length_app, length_fmap.
      pose proof (length_filter (.≠ y) (neighbors cw x)).
      pose proof (neighbors_length cw x). nia.
    + assert (s1 = s) as ->.
      { destruct (overlaps_get cw x y) as [[i j]|]; [|by destruct Hspec].
        by destruct Hspec as (dx & _ & _ & ->). }
      apply IH; [done|]. unfold ac3_fuel in *. simpl in *. lia.
Qed.

Lemma ac3_total arcs s :
  wf_crossword cw → domains_ok cw (domains s) → ∃ b s', ac3 cw arcs s = Ok (b, s').
Proof. intros Hwf Hok. rewrite ac3_unfold. by apply ac3_loop_total. Qed.

(** *** A settled store is left alone *)

Lemma arcs_settled_indexable D x y i j :
  wf_crossword cw → arcs_settled cw D → overlaps_get cw x y = Some (i, j) →
  Forall (λ w, is_Some (String.get i w)) (dom_words D x) ∧
  Forall (λ w', is_Some (String.get j w')) (dom_words D y).
Proof.
  intros Hwf Hset Hxy.
  destruct (wf_overlap _ _ _ _ _ Hwf Hxy) as (_ & _ & _ & _ & _ & Hyx).
  destruct (Hset x y i j Hxy) as [Hin|[_ Hx]]; [by apply elem_of_nil in Hin|].
  destruct (Hset y x j i Hyx) as [Hin|[_ Hy]]; [by apply elem_of_nil in Hin|].
  split.
  - eapply Forall_impl; [exact Hx|]. intros w (w' & _ & c & Hc & _)%Exists_exists. eauto.
  - eapply Forall_impl; [exact Hy|]. intros w (w' & _ & c & Hc & _)%Exists_exists. eauto.
Qed.

Lemma revise_settled x y s :
  wf_crossword cw → arcs_settled cw (domains s) → revise cw x y s = Ok (false, s).
Proof.
  intros Hwf Hset. unfold revise.
  destruct (overlaps_get cw x y) as [[i j]|] eqn:Hxy; [|done].
  destruct (wf_overlap _ _ _ _ _ Hwf Hxy) as (_ & _ & _ & _ & _ & Hyx).
  destruct (arcs_settled_indexable _ _ _ _ _ Hwf Hset Hxy) as [Hix Hiy].
  destruct (Hset x y i j Hxy) as [Hin|[[dx Hdx] Hx]]; [by apply elem_of_nil in Hin|].
  destruct (Hset y x j i Hyx) as [Hin|[[dy Hdy] _]]; [by apply elem_of_nil in Hin|].
  rewrite (dom_words_Some _ _ _ Hdx) in Hx, Hix.
  rewrite (dom_words_Some _ _ _ Hdy) in Hiy.
  destruct (revise_loop_total y i j dx dy s) as [rm Hrm]; [done..|].
  rewrite (M_bind_run _ _ _ _ _ (domain_of_run _ _ _ Hdx)).
  rewrite (M_bind_run _ _ _ _ _ Hrm). cbn zeta.
  apply revise_loop_Ok in Hrm as [_ ->].
  rewrite bool_decide_eq_false_2; [done|]. intros Hne. apply Hne.
  apply (proj2 (filter_not_nil _ _)). by apply (proj2 (filter_eq_self _ _)).
Qed.

Lemma ac3_loop_settled fuel q s :
  wf_crossword cw → arcs_settled cw (domains s) → length q ≤ fuel →
  ac3_loop cw fuel q s = Ok (true, s).
Proof.
  intros Hwf Hset. revert q.
  induction fuel as [|fuel IH]; intros [|[x y] q] Hfuel; simpl in Hfuel;
    cbn [ac3_loop]; [done|lia|done|].
  rewrite (M_bind_run _ _ _ _ _ (revise_settled x y s Hwf Hset)). apply IH. lia.
Qed.

Lemma ac3_settled arcs s :
  wf_crossword cw → arcs_settled cw (domains s) → ac3 cw arcs s = Ok (true, s).
Proof.
  intros Hwf Hset. rewrite ac3_unfold. cbn zeta.
  apply ac3_loop_settled; [done..|]. unfold ac3_fuel. lia.
Qed.

End totality.

(** ** Assignments *)

Lemma dict_has_true (A : Assignment) v : dict_has A v = true ↔ v ∈ A.*1.
Proof. unfold dict_has. apply bool_decide_eq_true. Qed.

Lemma dict_has_false (A : Assignment) v : dict_has A v = false ↔ v ∉ A.*1.
Proof. unfold dict_has. apply bool_decide_eq_false. Qed.

Lemma dict_set_fresh (A : Assignment) var value :
  var ∉ A.*1 → dict_set A var value = A ++ [(var, value)].
Proof.
  induction A as [|[k w] A IH]; csimpl; intros Hn; [done|].
  apply not_elem_of_cons in Hn as [Hne Hn].
  rewrite decide_False by done. f_equal. auto.
Qed.

Lemma dict_del_snoc (A : Assignment) var value :
  var ∉ A.*1 → dict_del (A ++ [(var, value)]) var = Ok A.
Proof.
  intros Hn. unfold dict_del. rewrite (proj2 (dict_has_true _ _)).
  - cbv iota. f_equal. rewrite filter_app, filter_cons_False, filter_nil, app_nil_r.
    + apply (proj2 (filter_eq_self _ _)). apply Forall_forall. intros [k w] Hin Heq.
      simpl in Heq. subst k. apply Hn. apply list_elem_of_fmap. by exists (var, w).
    + simpl. by intros ?.
  - rewrite fmap_app. apply elem_of_app. right. by left.
Qed.

Lemma dict_get_elem_of (A : Assignment) v w : dict_get A v = Ok w → (v, w) ∈ A.
Proof.
  unfold dict_get. destruct (list_find _ A) as [[n [k w']]|] eqn:E; [|done].
  intros [= <-]. apply list_find_Some in E as (Hl & Hk & _).
  simpl in Hk. subst k. by eapply list_elem_of_lookup_2.
Qed.

Lemma dict_get_total (A : Assignment) v : v ∈ A.*1 → ∃ w, dict_get A v = Ok w.
Proof.
  intros ([k w] & -> & Hin)%list_elem_of_fmap. unfold dict_get. simpl.
  destruct (list_find_elem_of (λ kv : Var.t * string, kv.1 = k) A (k, w)) as [[n kv] ->];
    [done..|]. eauto.
Qed.

Lemma dict_unique (A : Assignment) v w w' :
  NoDup A.*1 → (v, w) ∈ A → (v, w') ∈ A → w = w'.
Proof.
  induction A as [|[k u] A IH]; csimpl; intros Hnd Hw Hw'.
  - by apply elem_of_nil in Hw.
  - apply NoDup_cons in Hnd as [Hk Hnd].
    apply elem_of_cons in Hw as [Hw|Hw]; apply elem_of_cons in Hw' as [Hw'|Hw'].
    + congruence.
    + injection Hw as -> ->. destruct Hk. apply list_elem_of_fmap. by exists (k, w').
    + injection Hw' as -> ->. destruct Hk. apply list_elem_of_fmap. by exists (k, w).
    + auto.
Qed.

Lemma dict_get_Ok (A : Assignment) v w :
  NoDup A.*1 → (v, w) ∈ A → dict_get A v = Ok w.
Proof.
  intros Hnd Hin. destruct (dict_get_total A v) as [w' Hw'].
  - apply list_elem_of_fmap. by exists (v, w).
  - rewrite Hw'. f_equal. eapply dict_unique; [done| |done]. by apply dict_get_elem_of.
Qed.

(** ** consistent *)

Section consistent.
Context (cw : Crossword).

Lemma overlaps_agree_Ok A var word nbs :
  NoDup A.*1 → overlaps_agree cw A var word nbs = Ok true →
  ∀ nb w' i j, nb ∈ nbs → (nb, w') ∈ A → overlaps_get cw var nb = Some (i, j) →
    agree i j word w'.
Proof.
  intros Hnd. induction nbs as [|n nbs IH]; intros H nb w' i j Hnb Hw' Hov;
    cbn [overlaps_agree] in H.
  - by apply elem_of_nil in Hnb.
  - apply elem_of_cons in Hnb as [->|Hnb].
    + rewrite (proj2 (dict_has_true A n)), Hov in H
        by (apply list_elem_of_fmap; by exists (n, w')).
      inv_ok H. inv_ok E. inv_ok H. inv_ok H. inv_ok E1.
      rewrite (dict_get_Ok _ _ _ Hnd Hw') in E0. injection E0 as <-.
      destruct (decide (a ≠ a1)) as [|Heq]; [done|].
      apply dec_stable in Heq. subst. by exists a1.
    + destruct (dict_has A n); [|by eapply IH].
      destruct (overlaps_get cw var n) as [[i' j']|]; [|by eapply IH].
      inv_ok H. inv_ok H. inv_ok H.
      destruct (decide (a ≠ a1)); [done|]. by eapply IH.
Qed.

Lemma overlaps_agree_true A var word nbs :
  NoDup A.*1 →
  (∀ nb w' i j, nb ∈ nbs → (nb, w') ∈ A → overlaps_get cw var nb = Some (i, j) →
     agree i j word w') →
  overlaps_agree cw A var word nbs = Ok true.
Proof.
  intros Hnd. induction nbs as [|n nbs IH]; intros H; cbn [overlaps_agree]; [done|].
  assert (overlaps_agree cw A var word nbs = Ok true) as Hrest.
  { apply IH. intros nb w' i j Hnb. apply H. by right. }
  destruct (dict_has A n) eqn:Hhas; [|done].
  destruct (overlaps_get cw var n) as [[i j]|] eqn:Hov; [|done].
  apply dict_has_true in Hhas. destruct (dict_get_total _ _ Hhas) as [w' Hw'].
  destruct (H n w' i j) as (c & Hc & Hc'); [by left|by apply dict_get_elem_of|done|].
  rewrite (Outcome_bind_run _ _ _ (proj2 (getitem_Ok _ _ _) Hc)).
  rewrite (Outcome_bind_run _ _ _ Hw').
  rewrite (Outcome_bind_run _ _ _ (proj2 (getitem_Ok _ _ _) Hc')).
  by rewrite decide_False by (by intros ?).
Qed.

Lemma overlaps_agree_total A var word nbs :
  (∀ nb i j, nb ∈ nbs → overlaps_get cw var nb = Some (i, j) →
     is_Some (String.get i word) ∧
     ∀ w', (nb, w') ∈ A → is_Some (String.get j w')) →
  ∃ b, overlaps_agree cw A var word nbs = Ok b.
Proof.
  induction nbs as [|n nbs IH]; intros H; cbn [overlaps_agree]; [by eexists|].
  destruct IH as [r Hrest].
  { intros nb i j Hnb. apply H. by right. }
  destruct (dict_has A n) eqn:Hhas; [|by eexists].
  destruct (overlaps_get cw var n) as [[i j]|] eqn:Hov; [|by eexists].
  apply dict_has_true in Hhas. destruct (dict_get_total _ _ Hhas) as [w' Hw'].
  destruct (H n i j) as ([c Hc] & Hothers); [by left|done|].
  destruct (Hothers w') as [c' Hc']; [by apply dict_get_elem_of|].
  rewrite (Outcome_bind_run _ _ _ (proj2 (getitem_Ok _ _ _) Hc)).
  rewrite (Outcome_bind_run _ _ _ Hw').
  rewrite (Outcome_bind_run _ _ _ (proj2 (getitem_Ok _ _ _) Hc')).
  destruct (decide (c ≠ c')); by eexists.
Qed.

Lemma consistent_loop_Ok A items seen :
  consistent_loop cw A items seen = Ok true →
  (NoDup seen → NoDup (items.*2 ++ seen)) ∧
  ∀ v w, (v, w) ∈ items →
    String.length w = Var.length v ∧
    overlaps_agree cw A v w (neighbors cw v) = Ok true.
Proof.
  revert seen. induction items as [|[var word] items IH]; intros seen H;
    cbn [consistent_loop] in H.
  - split; [done|]. intros v w Hin. by apply elem_of_nil in Hin.
  - case_bool_decide as Hseen; [done|]. case_bool_decide as Hlen; [done|].
    inv_ok H. destruct a; [|done]. apply IH in H as [Hnd Hall]. split.
    + intros Hs. csimpl. apply NoDup_cons. split.
      * intros Hin. assert (NoDup (items.*2 ++ word :: seen)) as Hnd'.
        { apply Hnd. by apply NoDup_cons. }
        apply NoDup_app in Hnd' as (_ & Hdisj & _).
        apply elem_of_app in Hin as [Hin|Hin]; [|done].
        apply (Hdisj word Hin). by left.
      * assert (NoDup (items.*2 ++ word :: seen)) as Hnd'.
        { apply Hnd. by apply NoDup_cons. }
        apply NoDup_app in Hnd' as (Hi & Hdisj & Hs'%NoDup_cons).
        apply NoDup_app. split; [done|]. split; [|by destruct Hs'].
        intros x Hx Hx'. apply (Hdisj x Hx). by right.
    + intros v w [[= -> ->]|Hin]%elem_of_cons; [|by apply Hall].
      by split.
Qed.

Lemma consistent_loop_true A items seen :
  NoDup (items.*2 ++ seen) →
  (∀ v w, (v, w) ∈ items →
     String.length w = Var.length v ∧
     overlaps_agree cw A v w (neighbors cw v) = Ok true) →
  consistent_loop cw A items seen = Ok true.
Proof.
  revert seen. induction items as [|[var word] items IH]; intros seen Hnd H;
    cbn [consistent_loop]; [done|].
  csimpl in Hnd. apply NoDup_cons in Hnd as [Hword Hnd].
  apply not_elem_of_app in Hword as [Hw1 Hw2].
  destruct (H var word) as [Hlen Hagree]; [by left|].
  rewrite bool_decide_eq_false_2 by done.
  rewrite bool_decide_eq_false_2 by (by intros ?).
  rewrite (Outcome_bind_run _ _ _ Hagree). apply IH.
  - apply NoDup_app in Hnd as (Hi & Hdisj & Hs). apply NoDup_app.
    split; [done|]. split.
    + intros x Hx [->|Hx']%elem_of_cons; [done|]. by apply (Hdisj x).
    + by apply NoDup_cons.
  - intros v w Hin. apply H. by right.
Qed.

Lemma consistent_loop_total A items seen :
  (∀ v w, (v, w) ∈ items → String.length w = Var.length v →
     ∃ b, overlaps_agree cw A v w (neighbors cw v) = Ok b) →
  ∃ b, consistent_loop cw A items seen = Ok b.
Proof.
  revert seen. induction items as [|[var word] items IH]; intros seen H;
    cbn [consistent_loop]; [by eexists|].
  case_bool_decide; [by eexists|]. case_bool_decide as Hlen; [by eexists|].
  destruct (H var word) as [b Hb]; [by left|done|].
  rewrite (Outcome_bind_run _ _ _ Hb). destruct b; [|by eexists].
  apply IH. intros v w Hin. apply H. by right.
Qed.

Lemma consistent_sound A :
  wf_crossword cw → NoDup A.*1 → consistent cw A = Ok true → satisfies cw A.
Proof.
  intros Hwf Hnd H. apply consistent_loop_Ok in H as [Hwords Hall].
  split; [|split].
  - rewrite <-(app_nil_r A.*2). apply Hwords. constructor.
  - intros v w Hin. by apply Hall.
  - intros x y wx wy i j Hx Hy Hov.
    destruct (Hall x wx Hx) as [_ Hagree].
    eapply overlaps_agree_Ok; [done..| |done|done].
    by destruct (wf_neighbors _ _ _ _ _ Hwf Hov) as [? _].
Qed.

Lemma consistent_complete A :
  NoDup A.*1 → satisfies cw A → consistent cw A = Ok true.
Proof.
  intros Hnd (Hwords & Hlen & Hov). apply consistent_loop_true.
  - by rewrite app_nil_r.
  - intros v w Hin. split; [by apply Hlen|].
    apply overlaps_agree_true; [done|]. intros nb w' i j _ Hw'. by apply Hov.
Qed.

Lemma consistent_total A :
  wf_crossword cw →
  (∀ v w, (v, w) ∈ A → String.length w = Var.length v) →
  ∃ b, consistent cw A = Ok b.
Proof.
  intros Hwf Hlen. apply consistent_loop_total. intros v w Hin Hw.
  apply overlaps_agree_total. intros nb i j Hnb Hov.
  destruct (wf_overlap _ _ _ _ _ Hwf Hov) as (_ & _ & _ & Hi & Hj & _). split.
  - apply get_is_Some. lia.
  - intros w' Hw'. apply get_is_Some. rewrite (Hlen _ _ Hw'). lia.
Qed.

End consistent.

(** ** select_unassigned_variable and order_domain_values *)

Section heuristics.
Context (cw : Crossword).

Lemma elem_of_unassigned A v : v ∈ unassigned cw A ↔ v ∈ variables cw ∧ v ∉ A.*1.
Proof.
  unfold unassigned, dict_has. rewrite list_elem_of_filter, bool_decide_spec. tauto.
Qed.

Lemma sort_criteria_Ok D v k :
  sort_criteria cw D v = Ok k → ∃ ws, D !! v = Some ws ∧ k.1 = length ws.
Proof.
  unfold sort_criteria. intros H. inv_ok H. inv_ok E. inv_ok H. subst k. eauto.
Qed.

Lemma sort_criteria_total D v : is_Some (D !! v) → ∃ k, sort_criteria cw D v = Ok k.
Proof.
  intros [ws Hws]. unfold sort_criteria.
  rewrite (Outcome_bind_run _ _ _ (proj2 (lookup_domain_Ok _ _ _) Hws)). by eexists.
Qed.

Lemma key_lt_trans a b c : key_lt a b → key_lt b c → key_lt a c.
Proof. unfold key_lt. destruct a, b, c; simpl. lia. Qed.

Lemma key_lt_irrefl a : ¬ key_lt a a.
Proof. unfold key_lt. destruct a; simpl. lia. Qed.

Lemma key_lt_total a b c : ¬ key_lt a b → ¬ key_lt b c → ¬ key_lt a c.
Proof. unfold key_lt. destruct a, b, c; simpl. lia. Qed.

Lemma min_loop_Ok D best k rest v :
  min_loop cw D best k rest = Ok v → sort_criteria cw D best = Ok k →
  v ∈ best :: rest ∧
  ∃ kv, sort_criteria cw D v = Ok kv ∧ ¬ key_lt k kv ∧
    ∀ u, u ∈ rest → ∃ ku, sort_criteria cw D u = Ok ku ∧ ¬ key_lt ku kv.
Proof.
  revert best k. induction rest as [|u rest IH]; intros best k H Hk; cbn [min_loop] in H.
  - inv_ok H. subst v. split; [by left|]. exists k. split; [done|].
    split; [apply key_lt_irrefl|]. intros u Hu. by apply elem_of_nil in Hu.
  - inv_ok H. destruct (decide (key_lt a k)) as [Hlt|Hge].
    + destruct (IH _ _ H E) as (Hv & kv & Hkv & Hmin & Hrest). split; [by right|].
      exists kv. split; [done|]. split.
      * intros Hk'. apply Hmin. by eapply key_lt_trans.
      * intros u' [->|Hu']%elem_of_cons; [eauto|by apply Hrest].
    + destruct (IH _ _ H Hk) as (Hv & kv & Hkv & Hmin & Hrest). split.
      { apply elem_of_cons in Hv as [->|Hv]; [by left|by do 2 right]. }
      exists kv. split; [done|]. split; [done|].
      intros u' [->|Hu']%elem_of_cons; [|by apply Hrest].
      exists a. split; [done|]. by eapply key_lt_total.
Qed.

Lemma min_loop_total D best k rest :
  (∀ v, v ∈ rest → is_Some (D !! v)) → ∃ v, min_loop cw D best k rest = Ok v.
Proof.
  revert best k. induction rest as [|u rest IH]; intros best k H; cbn [min_loop].
  - by eexists.
  - destruct (sort_criteria_total D u) as [ku Hku]; [apply H; by left|].
    rewrite (Outcome_bind_run _ _ _ Hku).
    destruct (decide (key_lt ku k)); apply IH; intros v Hv; apply H; by right.
Qed.

Lemma select_unassigned_variable_Ok A s var s' :
  select_unassigned_variable cw A s = Ok (var, s') →
  s' = s ∧ var ∈ unassigned cw A ∧
  ∀ v, v ∈ unassigned cw A →
    length (dom_words (domains s) var) ≤ length (dom_words (domains s) v).
Proof.
  unfold select_unassigned_variable. intros H. inv_ok H. inv_ok E.
  destruct (unassigned cw A) as [|v0 rest]; [done|].
  inv_ok H. inv_ok H. split; [done|].
  destruct (min_loop_Ok _ _ _ _ _ H E) as (Hv & kv & Hkv & Hmin & Hrest).
  split; [done|]. intros v Hin.
  apply sort_criteria_Ok in Hkv as (ws & Hws & Hlen).
  rewrite (dom_words_Some _ _ _ Hws), <-Hlen.
  assert (∃ ku, sort_criteria cw (domains s) v = Ok ku ∧ ¬ key_lt ku kv)
    as (ku & Hku & Hle).
  { apply elem_of_cons in Hin as [->|Hin]; [eauto|by apply Hrest]. }
  apply sort_criteria_Ok in Hku as (ws' & Hws' & Hlen').
  rewrite (dom_words_Some _ _ _ Hws'), <-Hlen'.
  unfold key_lt in Hle. lia.
Qed.

Lemma select_unassigned_variable_total A s :
  (∀ v, v ∈ variables cw → is_Some (domains s !! v)) → unassigned cw A ≠ [] →
  ∃ var, select_unassigned_variable cw A s = Ok (var, s).
Proof.
  intros Hkeys Hne. unfold select_unassigned_variable.
  erewrite M_bind_run; [|done].
  assert (∀ v, v ∈ unassigned cw A → is_Some (domains s !! v)) as Hun.
  { intros v [Hv _]%elem_of_unassigned. by apply Hkeys. }
  destruct (unassigned cw A) as [|v0 rest]; [done|].
  destruct (sort_criteria_total (domains s) v0) as [k Hk]; [apply Hun; by left|].
  destruct (min_loop_total (domains s) v0 k rest) as [v Hv].
  { intros v Hv. apply Hun. by right. }
  exists v. apply lift_run. by rewrite (Outcome_bind_run _ _ _ Hk).
Qed.

Lemma with_keys_Ok {A K} (key : A → Outcome K) l keyed :
  with_keys key l = Ok keyed → keyed.*2 = l.
Proof.
  revert keyed. induction l as [|a l IH]; intros keyed H; cbn [with_keys] in H.
  - inv_ok H. by subst.
  - inv_ok H. inv_ok H. inv_ok H. subst keyed. csimpl. f_equal. by apply IH.
Qed.

Lemma with_keys_total {A K} (key : A → Outcome K) l :
  (∀ a, a ∈ l → ∃ k, key a = Ok k) → ∃ keyed, with_keys key l = Ok keyed.
Proof.
  induction l as [|a l IH]; intros H; cbn [with_keys]; [by eexists|].
  destruct (H a) as [k Hk]; [by left|].
  destruct IH as [keyed Hkeyed]; [intros b Hb; apply H; by right|].
  rewrite (Outcome_bind_run _ _ _ Hk), (Outcome_bind_run _ _ _ Hkeyed). by eexists.
Qed.

Lemma insert_by_key_perm {A} (ka : nat * A) l : insert_by_key ka l ≡ₚ ka :: l.
Proof.
  induction l as [|kb l IH]; cbn [insert_by_key]; [done|].
  destruct (decide (ka.1 ≤ kb.1)); [done|]. rewrite IH. apply Permutation_swap.
Qed.

Lemma sorted_by_key_perm {A} (l : list (nat * A)) : sorted_by_key l ≡ₚ l.*2.
Proof.
  unfold sorted_by_key. induction l as [|ka l IH]; [done|]. cbn [foldr].
  rewrite insert_by_key_perm. csimpl. by rewrite IH.
Qed.

Lemma order_domain_values_Ok var A s values s' :
  order_domain_values cw var A s = Ok (values, s') →
  s' = s ∧ ∃ ws, domains s !! var = Some ws ∧ values ≡ₚ ws.
Proof.
  unfold order_domain_values. intros H. inv_ok H. inv_ok E. inv_ok H. inv_ok E.
  inv_ok H. inv_ok E0. inv_ok H. injection H as -> ->. split; [done|].
  exists a. split; [done|]. rewrite sorted_by_key_perm.
  by rewrite (with_keys_Ok _ _ _ E0).
Qed.

Lemma count_mismatches_total word i j dn :
  is_Some (String.get i word) → Forall (λ w', is_Some (String.get j w')) dn →
  ∃ n, count_mismatches word i j dn = Ok n.
Proof.
  intros [a Ha] Hdn. induction Hdn as [|w' dn [b Hb] _ [n IH]]; cbn [count_mismatches].
  - by eexists.
  - rewrite (Outcome_bind_run _ _ _ (proj2 (getitem_Ok _ _ _) Ha)).
    rewrite (Outcome_bind_run _ _ _ (proj2 (getitem_Ok _ _ _) Hb)).
    rewrite (Outcome_bind_run _ _ _ IH). by eexists.
Qed.

Lemma count_conflicts_total D var A word nbs :
  (∀ nb i j, nb ∈ nbs → overlaps_get cw var nb = Some (i, j) →
     is_Some (String.get i word) ∧
     ∃ dn, D !! nb = Some dn ∧ Forall (λ w', is_Some (String.get j w')) dn) →
  ∃ n, count_conflicts cw D var A word nbs = Ok n.
Proof.
  induction nbs as [|nb nbs IH]; intros H; cbn [count_conflicts]; [by eexists|].
  destruct IH as [n Hn]; [intros nb' i j Hnb'; apply H; by right|].
  destruct (negb (dict_has A nb)); [|by eexists].
  destruct (overlaps_get cw var nb) as [[i j]|] eqn:Hov; [|by eexists].
  destruct (H nb i j) as (Hi & dn & Hdn & Hj); [by left|done|].
  destruct (count_mismatches_total word i j dn Hi Hj) as [c Hc].
  rewrite (Outcome_bind_run _ _ _ (proj2 (lookup_domain_Ok _ _ _) Hdn)).
  rewrite (Outcome_bind_run _ _ _ Hc), (Outcome_bind_run _ _ _ Hn). by eexists.
Qed.

Lemma order_domain_values_total var A s :
  wf_crossword cw → domains_ok cw (domains s) → var ∈ variables cw →
  ∃ values, order_domain_values cw var A s = Ok (values, s).
Proof.
  intros Hwf Hok Hvar. unfold order_domain_values.
  destruct (proj1 Hok var Hvar) as [ws Hws].
  erewrite M_bind_run; [|done].
  rewrite (M_bind_run _ _ _ _ _ (domain_of_run _ _ _ Hws)).
  destruct (with_keys_total
    (λ word, count_conflicts cw (domains s) var A word (neighbors cw var)) ws)
    as [keyed Hkeyed].
  { intros word Hword. apply count_conflicts_total. intros nb i j _ Hov.
    destruct (wf_overlap _ _ _ _ _ Hwf Hov) as (_ & Hnb & _).
    destruct (proj1 Hok nb Hnb) as [dn Hdn].
    pose proof (domains_ok_indexable _ _ _ _ _ _ _ Hwf Hok Hov Hws) as Hi.
    destruct (wf_overlap _ _ _ _ _ Hwf Hov) as (_ & _ & _ & _ & _ & Hov').
    pose proof (domains_ok_indexable _ _ _ _ _ _ _ Hwf Hok Hov' Hdn) as Hj.
    split; [|by eauto]. rewrite Forall_forall in Hi. by apply Hi. }
  rewrite (M_bind_run _ _ _ _ _ (lift_run _ _ s Hkeyed)). by eexists.
Qed.

End heuristics.

(** ** backtrack *)

Section backtrack.
Context (cw : Crossword).

Lemma propagate_Ok s ok s' :
  propagate cw s = Ok (ok, s') →
  ∃ s1, ac3 cw None s = Ok (ok, s1) ∧
        s' = mkState (domains s1) (Propagated (domains s) ok (domains s1) :: log s1).
Proof.
  unfold propagate. intros H. inv_ok H. inv_ok E. inv_ok H. inv_ok H. inv_ok E0.
  inv_ok H. inv_ok E0. inv_ok H. injection H as -> ->. eauto.
Qed.

Lemma propagate_evolves s ok s' : propagate cw s = Ok (ok, s') → evolves s s'.
Proof.
  intros (s1 & Hac3 & ->)%propagate_Ok. etrans; [by eapply ac3_evolves|].
  apply evolves_emit_propagated.
Qed.

Lemma try_values_evolves rec var values A s r s' :
  (∀ A s r s', rec A s = Ok (r, s') → evolves s s') →
  try_values cw rec var values A s = Ok (r, s') → evolves s s'.
Proof.
  intros Hrec. revert A s. induction values as [|value rest IH]; intros A s H;
    cbn [try_values] in H.
  - inv_ok H. by injection H as -> ->.
  - inv_ok H. inv_ok E. destruct a; [|by eapply IH].
    inv_ok H. inv_ok E0. inv_ok H. apply propagate_evolves in E0.
    inv_ok H. destruct a0 as [returned A2].
    assert (evolves s s1) as Hs1.
    { etrans; [done|]. destruct a; [by eapply Hrec|]. inv_ok E1. by injection E1 as _ _ ->. }
    destruct (returned && bool_decide (A2 ≠ [])).
    + inv_ok H. by injection H as -> ->.
    + inv_ok H. inv_ok E2. subst s2. inv_ok H. inv_ok E2.
      etrans; [by apply evolves_restore|]. by eapply IH.
Qed.

Lemma backtrack_evolves fuel A s r s' :
  backtrack cw fuel A s = Ok (r, s') → evolves s s'.
Proof.
  revert A s r s'. induction fuel as [|fuel IH]; intros A s r s' H; cbn [backtrack] in H.
  - done.
  - inv_ok H. inv_ok E. inv_ok H. inv_ok E. subst s0.
    etrans; [apply (evolves_emit_entered A (domains s))|].
    destruct (assignment_complete cw A).
    + inv_ok H. by injection H as -> ->.
    + inv_ok H. apply select_unassigned_variable_Ok in E as (-> & _).
      inv_ok H. apply order_domain_values_Ok in E as (-> & _).
      eapply try_values_evolves; [|done]. apply IH.
Qed.

End backtrack.

(** *** What a call of backtrack returns *)

Section backtrack_result.
Context (cw : Crossword).

Lemma completes_snoc D0 A var value A' :
  value ∈ dom_words D0 var →
  completes cw D0 (A ++ [(var, value)]) A' → completes cw D0 A A'.
Proof.
  intros Hvalue ([B ->] & Hnd & Hsub & Hcons & Hlen & Hwords).
  split; [|split_and!; try done].
  - exists ([(var, value)] ++ B). by rewrite (assoc_L (++)).
  - intros v w Hin. destruct (Hwords v w Hin) as [Hin'|?]; [|by right].
    apply elem_of_app in Hin' as [?|Hin']; [by left|].
    apply list_elem_of_singleton in Hin'. injection Hin' as -> ->. by right.
Qed.

Lemma snoc_keys (A : Assignment) var value :
  var ∈ variables cw → var ∉ A.*1 → NoDup A.*1 → A.*1 ⊆ variables cw →
  NoDup (A ++ [(var, value)]).*1 ∧ (A ++ [(var, value)]).*1 ⊆ variables cw.
Proof.
  intros Hvar Hfresh Hnd Hsub. rewrite fmap_app. csimpl. split.
  - apply NoDup_app. split; [done|]. split; [|apply NoDup_singleton].
    intros x Hx ->%list_elem_of_singleton. done.
  - intros x [Hx| ->%list_elem_of_singleton]%elem_of_app; [by apply Hsub|done].
Qed.

Lemma try_values_Ok D0 rec var values A s r s' :
  (∀ A s r s', NoDup A.*1 → A.*1 ⊆ variables cw → consistent cw A = Ok true →
     shrinks (domains s) D0 → rec A s = Ok (r, s') → outcome_ok cw D0 A r) →
  var ∈ variables cw → var ∉ A.*1 → NoDup A.*1 → A.*1 ⊆ variables cw →
  (∀ w, w ∈ values → w ∈ dom_words D0 var) →
  shrinks (domains s) D0 →
  try_values cw rec var values A s = Ok (r, s') → outcome_ok cw D0 A r.
Proof.
  intros Hrec Hvar Hfresh Hnd Hsub. revert s.
  induction values as [|value rest IH]; intros s Hvalues Hsh H; cbn [try_values] in H.
  - inv_ok H. by injection H as -> ->.
  - assert (∀ w, w ∈ rest → w ∈ dom_words D0 var) as Hrest.
    { intros w Hw. apply Hvalues. by right. }
    rewrite (dict_set_fresh _ _ _ Hfresh) in H.
    inv_ok H. inv_ok E. destruct a; [|by eapply IH].
    inv_ok H. inv_ok E0. inv_ok H. apply propagate_evolves, evolves_shrinks in E0. rename E0 into Hsh1.
    inv_ok H. destruct a0 as [returned A2].
    destruct (snoc_keys A var value) as [Hnd1 Hsub1]; [done..|].
    assert (outcome_ok cw D0 (A ++ [(var, value)]) (returned, A2)) as Hout.
    { destruct a.
      - eapply Hrec; [done..| |done]. by etrans.
      - inv_ok E0. by injection E0 as -> -> ->. }
    unfold outcome_ok in Hout. destruct returned; simpl in H, Hout.
    + case_bool_decide as Hne.
      * inv_ok H. injection H as -> ->. unfold outcome_ok. simpl.
        eapply completes_snoc; [|done]. apply Hvalues. by left.
      * destruct Hout as ([B ->] & _). by destruct A.
    + subst A2. inv_ok H. inv_ok E1. subst s2. inv_ok H. inv_ok E1.
      rewrite (dict_del_snoc _ _ _ Hfresh) in E1. injection E1 as <-.
      eapply IH; [done| |done]. done.
Qed.

Lemma backtrack_Ok D0 fuel A s r s' :
  NoDup A.*1 → A.*1 ⊆ variables cw → consistent cw A = Ok true →
  shrinks (domains s) D0 →
  backtrack cw fuel A s = Ok (r, s') → outcome_ok cw D0 A r.
Proof.
  revert A s r s'. induction fuel as [|fuel IH]; intros A s r s' Hnd Hsub Hcons Hsh H;
    cbn [backtrack] in H; [done|].
  inv_ok H. inv_ok E. inv_ok H. inv_ok E. subst s0.
  destruct (assignment_complete cw A) eqn:Hcomplete.
  - inv_ok H. injection H as -> ->. unfold outcome_ok. simpl.
    split_and!; [by exists []; rewrite app_nil_r|done..| |by left].
    by apply bool_decide_eq_true in Hcomplete.
  - inv_ok H. apply select_unassigned_variable_Ok in E as (-> & Hun & _).
    apply elem_of_unassigned in Hun as [Hvar Hfresh].
    inv_ok H. apply order_domain_values_Ok in E as (-> & ws & Hws & Hperm).
    eapply try_values_Ok; [exact IH|done|done|done|done| | |exact H]; [|exact Hsh].
    intros w Hw. rewrite Hperm in Hw. simpl in Hws.
    apply (shrinks_dom_words _ _ _ Hsh). by rewrite (dom_words_Some _ _ _ Hws).
Qed.

End backtrack_result.

(** *** backtrack on a store that needs no revision *)

#[global] Instance quiet_run_preorder : PreOrder quiet_run.
Proof.
  split.
  - intros s. split; [done|]. by exists [].
  - intros s1 s2 s3 (D12 & evs1 & L12 & Q12) (D23 & evs2 & L23 & Q23).
    split; [congruence|]. exists (evs2 ++ evs1). split.
    + by rewrite L23, L12, (assoc_L (++)).
    + apply Forall_app. split; [by rewrite <-D12|done].
Qed.

Lemma quiet_run_cons s ev :
  quiet (domains s) ev → quiet_run s (mkState (domains s) (ev :: log s)).
Proof. intros Hq. split; [done|]. exists [ev]. split; [done|]. by constructor. Qed.

Section settled.
Context (cw : Crossword).

Lemma propagate_settled s :
  wf_crossword cw → arcs_settled cw (domains s) →
  propagate cw s =
  Ok (true, mkState (domains s) (Propagated (domains s) true (domains s) :: log s)).
Proof.
  intros Hwf Hset. unfold propagate.
  erewrite M_bind_run; [|reflexivity].
  by rewrite (M_bind_run _ _ _ _ _ (ac3_settled cw None s Hwf Hset)).
Qed.

Lemma try_values_quiet rec var values A s r s' :
  wf_crossword cw →
  (∀ A s r s', arcs_settled cw (domains s) → rec A s = Ok (r, s') → quiet_run s s') →
  arcs_settled cw (domains s) →
  try_values cw rec var values A s = Ok (r, s') → quiet_run s s'.
Proof.
  intros Hwf Hrec. revert A s.
  induction values as [|value rest IH]; intros A s Hset H; cbn [try_values] in H.
  - inv_ok H. by injection H as -> ->.
  - inv_ok H. inv_ok E. destruct a; [|by eapply IH].
    inv_ok H. inv_ok E0. inv_ok H.
    rewrite (propagate_settled _ Hwf Hset) in E0. injection E0 as <- <-.
    inv_ok H. destruct a as [returned A2].
    assert (quiet_run s s0) as Hs0.
    { etrans; [apply (quiet_run_cons s (Propagated (domains s) true (domains s)))|];
        [done|]. by eapply Hrec. }
    destruct (returned && bool_decide (A2 ≠ [])).
    + inv_ok H. by injection H as -> ->.
    + inv_ok H. inv_ok E1. subst s1. inv_ok H. inv_ok E1.
      destruct Hs0 as [Hdom Hlog]. etrans; [|eapply IH; [|done]]; [|done].
      etrans; [exact (conj Hdom Hlog)|].
      rewrite <-Hdom. apply (quiet_run_cons s0). by rewrite Hdom.
Qed.

Lemma backtrack_quiet fuel A s r s' :
  wf_crossword cw → arcs_settled cw (domains s) →
  backtrack cw fuel A s = Ok (r, s') → quiet_run s s'.
Proof.
  intros Hwf. revert A s r s'.
  induction fuel as [|fuel IH]; intros A s r s' Hset H; cbn [backtrack] in H; [done|].
  inv_ok H. inv_ok E. inv_ok H. inv_ok E. subst s0.
  etrans; [apply (quiet_run_cons s (Entered A (domains s))); done|].
  destruct (assignment_complete cw A).
  - inv_ok H. by injection H as -> ->.
  - inv_ok H. apply select_unassigned_variable_Ok in E as (-> & _).
    inv_ok H. apply order_domain_values_Ok in E as (-> & _).
    eapply try_values_quiet; [done|exact IH| |exact H]. done.
Qed.

End settled.

(** *** Completeness of the search *)

Lemma NoDup_fmap_elem_inj {A B} (f : A → B) (l : list A) x y :
  NoDup (f <$> l) → x ∈ l → y ∈ l → f x = f y → x = y.
Proof.
  induction l as [|a l IH]; csimpl; intros Hnd Hx Hy Heq.
  - by apply elem_of_nil in Hx.
  - apply NoDup_cons in Hnd as [Ha Hnd].
    apply elem_of_cons in Hx as [->|Hx]; apply elem_of_cons in Hy as [->|Hy].
    + done.
    + destruct Ha. rewrite Heq. by apply list_elem_of_fmap_2.
    + destruct Ha. rewrite <-Heq. by apply list_elem_of_fmap_2.
    + auto.
Qed.

Section completeness.
Context (cw : Crossword).

Lemma satisfies_subseteq (S A : Assignment) :
  satisfies cw S → NoDup A.*1 → A ⊆ S → satisfies cw A.
Proof.
  intros (Hwords & Hlen & Hov) Hnd Hsub. split; [|split].
  - apply NoDup_fmap_2_strong; [|by eapply NoDup_fmap_1].
    intros x y Hx Hy Heq. eapply NoDup_fmap_elem_inj; [exact Hwords|auto..].
  - intros v w Hin. by apply Hlen, Hsub.
  - intros x y wx wy i j Hx Hy. apply Hov; by apply Hsub.
Qed.

Lemma snoc_subseteq (S A : Assignment) var w :
  A ⊆ S → (var, w) ∈ S → A ++ [(var, w)] ⊆ S.
Proof.
  intros Hsub Hin x [Hx| ->%list_elem_of_singleton]%elem_of_app; [by apply Hsub|done].
Qed.

Lemma try_values_exhausted fuel S var values A s A' s' :
  wf_crossword cw → satisfies cw S →
  (∀ A s A' s', NoDup A.*1 → A.*1 ⊆ variables cw → A ⊆ S →
     arcs_settled cw (domains s) → within (domains s) S →
     backtrack cw fuel A s = Ok (false, A', s') → False) →
  var ∈ variables cw → var ∉ A.*1 → NoDup A.*1 → A.*1 ⊆ variables cw → A ⊆ S →
  arcs_settled cw (domains s) → within (domains s) S →
  try_values cw (backtrack cw fuel) var values A s = Ok (false, A', s') →
  ∀ w, (var, w) ∈ S → w ∉ values.
Proof.
  intros Hwf HS IHfuel Hvar Hfresh Hnd Hsub HAS. revert s.
  induction values as [|value rest IH]; intros s Hset Hin H w Hw Hvalues;
    cbn [try_values] in H.
  - by apply elem_of_nil in Hvalues.
  - rewrite (dict_set_fresh _ _ _ Hfresh) in H.
    destruct (snoc_keys cw A var value) as [Hnd1 Hsub1]; [done..|].
    assert (value = w → consistent cw (A ++ [(var, value)]) = Ok true) as Hcons.
    { intros ->. apply consistent_complete; [done|].
      eapply satisfies_subseteq; [done..|]. by apply snoc_subseteq. }
    assert (value ≠ w → w ∈ rest) as Hrest.
    { intros Hne. by apply elem_of_cons in Hvalues as [?|?]. }
    inv_ok H. inv_ok E. destruct a.
    + inv_ok H. inv_ok E0. inv_ok H.
      rewrite (propagate_settled _ _ Hwf Hset) in E0. injection E0 as <- <-.
      inv_ok H. destruct a as [returned A2].
      assert (outcome_ok cw (domains s) (A ++ [(var, value)]) (returned, A2)) as Hout.
      { eapply backtrack_Ok; [exact Hnd1|exact Hsub1|exact E| |exact E0].
        simpl. reflexivity. }
      unfold outcome_ok in Hout. destruct returned; simpl in H, Hout.
      * destruct Hout as ([B ->] & _).
        rewrite bool_decide_eq_true_2 in H by (by destruct A).
        inv_ok H. done.
      * subst A2. destruct (decide (value = w)) as [->|Hne].
        { eapply IHfuel; [exact Hnd1|exact Hsub1|by apply snoc_subseteq| | |exact E0];
            done. }
        inv_ok H. inv_ok E1. subst s1. inv_ok H. inv_ok E1.
        rewrite (dict_del_snoc _ _ _ Hfresh) in E1. injection E1 as <-.
        eapply (IH (mkState (domains s) (Restored (domains s) :: log s0)) Hset Hin H w Hw); auto.
    + destruct (decide (value = w)) as [Heq|Hne].
      * rewrite (Hcons Heq) in E. done.
      * eapply (IH _ Hset Hin H w Hw); auto.
Qed.

Lemma backtrack_exhausted fuel S A s A' s' :
  wf_crossword cw → solution cw S →
  NoDup A.*1 → A.*1 ⊆ variables cw → A ⊆ S →
  arcs_settled cw (domains s) → within (domains s) S →
  backtrack cw fuel A s = Ok (false, A', s') → False.
Proof.
  intros Hwf (HSnd & HScover & HSvoc & HSsat). revert A s A' s'.
  induction fuel as [|fuel IH]; intros A s A' s' Hnd Hsub HAS Hset Hin H;
    cbn [backtrack] in H; [done|].
  inv_ok H. inv_ok E. inv_ok H. inv_ok E. subst s0.
  destruct (assignment_complete cw A).
  - inv_ok H. done.
  - inv_ok H. apply select_unassigned_variable_Ok in E as (-> & Hun & _).
    apply elem_of_unassigned in Hun as [Hvar Hfresh].
    inv_ok H. apply order_domain_values_Ok in E as (-> & ws & Hws & Hperm).
    pose proof (proj1 (HScover a0) Hvar) as Hcov.
    apply list_elem_of_fmap in Hcov as ([v w] & -> & Hw). simpl in *.
    refine (try_values_exhausted fuel S v a1 A
              (mkState (domains s) (Entered A (domains s) :: log s))
              A' s' Hwf HSsat IH Hvar Hfresh
              Hnd Hsub HAS Hset Hin H w Hw _).
    rewrite Hperm. rewrite <-(dom_words_Some _ _ _ Hws). by apply Hin.
Qed.

End completeness.

(** *** Termination and absence of exceptions for backtrack *)

Section backtrack_total.
Context (cw : Crossword).

Lemma unassigned_snoc_length A var value :
  var ∈ unassigned cw A →
  length (unassigned cw (A ++ [(var, value)])) < length (unassigned cw A).
Proof.
  intros Hvar. pose proof Hvar as [_ Hfresh]%elem_of_unassigned.
  assert (unassigned cw (A ++ [(var, value)]) = filter (.≠ var) (unassigned cw A))
    as ->.
  { unfold unassigned. rewrite list_filter_filter. apply list_filter_iff. intros v.
    unfold dict_has. rewrite !bool_decide_spec, fmap_app, elem_of_app. csimpl.
    rewrite list_elem_of_singleton. tauto. }
  eapply length_filter_lt; [done|]. by intros ?.
Qed.

Lemma incomplete_unassigned A :
  NoDup (variables cw) → NoDup A.*1 → A.*1 ⊆ variables cw →
  assignment_complete cw A = false → unassigned cw A ≠ [].
Proof.
  intros Hvars Hnd Hsub Hinc Hnil. apply bool_decide_eq_false in Hinc. apply Hinc.
  rewrite <-(length_fmap fst A). apply Nat.le_antisymm.
  - apply submseteq_length. by apply NoDup_submseteq.
  - apply submseteq_length. apply NoDup_submseteq; [done|]. intros v Hv.
    destruct (decide (v ∈ A.*1)) as [|Hfresh]; [done|].
    assert (v ∈ unassigned cw A) as Hun by (by apply elem_of_unassigned).
    rewrite Hnil in Hun. by apply elem_of_nil in Hun.
Qed.

Lemma propagate_total s :
  wf_crossword cw → domains_ok cw (domains s) →
  ∃ ok s', propagate cw s = Ok (ok, s').
Proof.
  intros Hwf Hok. destruct (ac3_total cw None s Hwf Hok) as (ok & s1 & Hac3).
  unfold propagate. erewrite M_bind_run; [|reflexivity].
  rewrite (M_bind_run _ _ _ _ _ Hac3). by eexists _, _.
Qed.

Lemma try_values_total fuel var values A s :
  wf_crossword cw →
  (∀ A s, NoDup A.*1 → A.*1 ⊆ variables cw → fits A → domains_ok cw (domains s) →
     length (unassigned cw A) < fuel → ∃ r s', backtrack cw fuel A s = Ok (r, s')) →
  var ∈ unassigned cw A → NoDup A.*1 → A.*1 ⊆ variables cw → fits A →
  Forall (λ w, String.length w = Var.length var) values →
  domains_ok cw (domains s) → length (unassigned cw A) ≤ fuel →
  ∃ r s', try_values cw (backtrack cw fuel) var values A s = Ok (r, s').
Proof.
  intros Hwf IHfuel Hun Hnd Hsub Hfits Hvalues. revert s.
  pose proof Hun as [Hvar Hfresh]%elem_of_unassigned.
  induction Hvalues as [|value rest Hlen _ IH]; intros s Hok Hfuel; cbn [try_values].
  - by eexists _, _.
  - rewrite (dict_set_fresh _ _ _ Hfresh).
    destruct (snoc_keys cw A var value) as [Hnd1 Hsub1]; [done..|].
    assert (fits (A ++ [(var, value)])) as Hfits1.
    { intros v w [Hin|Hin]%elem_of_app; [by apply Hfits|].
      apply list_elem_of_singleton in Hin. by injection Hin as -> ->. }
    destruct (consistent_total cw _ Hwf Hfits1) as [ok Hcons].
    rewrite (M_bind_run _ _ _ _ _ (lift_run _ _ s Hcons)).
    destruct ok; [|by apply IH].
    erewrite M_bind_run; [|reflexivity].
    destruct (propagate_total s Hwf Hok) as (propagated & s1 & Hprop).
    rewrite (M_bind_run _ _ _ _ _ Hprop).
    pose proof (evolves_shrinks _ _ (propagate_evolves _ _ _ _ Hprop)) as Hsh1.
    assert (∃ returned A2 s2,
      (if propagated then backtrack cw fuel (A ++ [(var, value)])
       else mret (false, A ++ [(var, value)])) s1 = Ok (returned, A2, s2) ∧
      outcome_ok cw (domains s1) (A ++ [(var, value)]) (returned, A2))
      as (returned & A2 & s2 & Hchild & Hout).
    { destruct propagated.
      - destruct (IHfuel (A ++ [(var, value)]) s1) as ([returned A2] & s2 & Hchild);
          [done..|by eapply domains_ok_shrinks| |].
        + pose proof (unassigned_snoc_length A var value Hun). lia.
        + exists returned, A2, s2. split; [done|].
          by eapply backtrack_Ok; [..|exact Hchild].
      - by exists false, (A ++ [(var, value)]), s1. }
    rewrite (M_bind_run _ _ _ _ _ Hchild). cbv beta iota.
    unfold outcome_ok in Hout. destruct returned; simpl in Hout |- *.
    + destruct Hout as ([B ->] & _).
      rewrite bool_decide_eq_true_2 by (by destruct A). by eexists _, _.
    + subst A2. erewrite M_bind_run; [|reflexivity].
      rewrite (M_bind_run _ _ _ _ _ (lift_run _ _ _ (dict_del_snoc _ _ _ Hfresh))).
      by apply IH.
Qed.

Lemma backtrack_total fuel A s :
  wf_crossword cw →
  NoDup A.*1 → A.*1 ⊆ variables cw → fits A → domains_ok cw (domains s) →
  length (unassigned cw A) < fuel →
  ∃ r s', backtrack cw fuel A s = Ok (r, s').
Proof.
  intros Hwf. revert A s.
  induction fuel as [|fuel IH]; intros A s Hnd Hsub Hfits Hok Hfuel; [lia|].
  cbn [backtrack]. erewrite M_bind_run; [|reflexivity].
  erewrite M_bind_run; [|reflexivity].
  set (s0 := mkState (domains s) (Entered A (domains s) :: log s)).
  destruct (assignment_complete cw A) eqn:Hcomplete; [by eexists _, _|].
  destruct (select_unassigned_variable_total cw A s0) as [var Hsel].
  { apply Hok. }
  { apply incomplete_unassigned; [apply Hwf|done..]. }
  rewrite (M_bind_run _ _ _ _ _ Hsel).
  apply select_unassigned_variable_Ok in Hsel as (_ & Hun & _).
  pose proof Hun as [Hvar _]%elem_of_unassigned.
  destruct (order_domain_values_total cw var A s0 Hwf Hok Hvar) as [values Hord].
  rewrite (M_bind_run _ _ _ _ _ Hord).
  apply order_domain_values_Ok in Hord as (_ & ws & Hws & Hperm).
  apply try_values_total; [done|exact IH|done..| |done|lia].
  rewrite Hperm. by eapply (proj2 Hok).
Qed.

End backtrack_total.

(** ** solve *)

Section solve.
Context (cw : Crossword).

Lemma init_domains_lookup v :
  v ∈ variables cw → init_domains cw !! v = Some (words cw).
Proof.
  intros Hv. unfold init_domains. apply elem_of_list_to_map_1'.
  - intros y Hy. by apply list_elem_of_fmap in Hy as (v' & [= _ ->] & _).
  - apply list_elem_of_fmap. eauto.
Qed.

Lemma dom_words_init v : dom_words (init_domains cw) v ⊆ words cw.
Proof.
  unfold dom_words, init_domains.
  destruct (list_to_map _ !! v) as [ws|] eqn:E; simpl.
  - apply elem_of_list_to_map_2 in E.
    by apply list_elem_of_fmap in E as (v' & [= _ ->] & _).
  - intros w Hw. by apply elem_of_nil in Hw.
Qed.

Lemma enforce_loop_total vars s :
  (∀ v, v ∈ vars → is_Some (domains s !! v)) →
  ∃ s', enforce_loop vars s = Ok ((), s').
Proof.
  revert s. induction vars as [|var vars IH]; intros s Hkeys; cbn [enforce_loop].
  - by eexists.
  - destruct (Hkeys var) as [ws Hws]; [by left|].
    rewrite (M_bind_run _ _ _ _ _ (domain_of_run _ _ _ Hws)).
    erewrite M_bind_run; [|unfold domain_discard; by rewrite Hws].
    apply IH. intros v Hv. simpl. destruct (decide (var = v)) as [->|Hne].
    + rewrite lookup_insert_eq. eauto.
    + rewrite lookup_insert_ne by done. apply Hkeys. by right.
Qed.

Lemma enforce_loop_keeps vars s u s' v w :
  enforce_loop vars s = Ok (u, s') →
  w ∈ dom_words (domains s) v → String.length w = Var.length v →
  w ∈ dom_words (domains s') v.
Proof.
  intros H Hw Hlen. revert s H Hw.
  induction vars as [|var vars IH]; intros s H Hw; cbn [enforce_loop] in H.
  - inv_ok H. by injection H as -> ->.
  - inv_ok H. inv_ok E. inv_ok H.
    apply domain_discard_Ok in E0 as (ws & Hws & ->).
    assert (ws = a) as -> by congruence.
    eapply IH; [done|]. unfold wrote. simpl.
    destruct (decide (var = v)) as [->|Hne].
    + rewrite dom_words_insert_eq. rewrite (dom_words_Some _ _ _ E) in Hw.
      apply list_elem_of_difference. split; [done|].
      intros [Hbad _]%list_elem_of_filter. done.
    + by rewrite dom_words_insert_ne.
Qed.

Lemma enforce_init :
  ∃ s1, enforce_node_consistency cw (init_state cw) = Ok ((), s1) ∧
        evolves (init_state cw) s1 ∧ domains_ok cw (domains s1) ∧
        ∀ v w, v ∈ variables cw → w ∈ words cw →
          String.length w = Var.length v → w ∈ dom_words (domains s1) v.
Proof.
  destruct (enforce_loop_total (variables cw) (init_state cw)) as [s1 Hs1].
  { intros v Hv. simpl. rewrite init_domains_lookup by done. eauto. }
  exists s1. split; [done|].
  destruct (enforce_node_consistency_Ok cw _ _ _ Hs1) as [Hev Hnc].
  split; [done|]. split; [split; [|done]|].
  - intros v Hv. apply evolves_shrinks in Hev.
    destruct (shrinks_lookup _ _ v (words cw) Hev) as (ws & -> & _); [|eauto].
    by apply init_domains_lookup.
  - intros v w Hv Hw Hlen. eapply enforce_loop_keeps; [done| |done].
    simpl. by rewrite (dom_words_Some _ _ _ (init_domains_lookup v Hv)).
Qed.

Lemma revise_within S x y s b s' :
  wf_crossword cw → solution cw S → within (domains s) S →
  revise cw x y s = Ok (b, s') →
  within (domains s') S ∧ (b = true → dom_words (domains s') x ≠ []).
Proof.
  intros Hwf (HSnd & HScover & HSvoc & _ & _ & HSov) Hin H.
  apply revise_Ok in H. destruct (overlaps_get cw x y) as [[i j]|] eqn:Hxy.
  - destruct H as (dx & Hdx & H). cbn zeta in H. destruct b; destruct H as [Hkeep ->].
    + destruct (wf_overlap _ _ _ _ _ Hwf Hxy) as (Hx & Hy & _).
      assert (∀ w, (x, w) ∈ S →
                w ∈ filter (supported i j (dom_words (domains s) y)) dx) as Hkept.
      { intros w Hw. apply list_elem_of_filter. split.
        - apply HScover, list_elem_of_fmap in Hy as ([y' wy] & -> & Hwy).
          apply Exists_exists. exists wy. split; [by apply Hin|]. by eapply HSov.
        - rewrite <-(dom_words_Some _ _ _ Hdx). by apply Hin. }
      unfold wrote. simpl. split.
      * intros v w Hvw. destruct (decide (x = v)) as [<-|Hne].
        -- rewrite dom_words_insert_eq. by apply Hkept.
        -- rewrite dom_words_insert_ne by done. by apply Hin.
      * intros _. rewrite dom_words_insert_eq.
        apply HScover, list_elem_of_fmap in Hx as ([x' wx] & -> & Hwx).
        intros Hnil. specialize (Hkept wx Hwx). rewrite Hnil in Hkept.
        by apply elem_of_nil in Hkept.
    + done.
  - by destruct H as [-> ->].
Qed.

Lemma ac3_loop_within S fuel q s b s' :
  wf_crossword cw → solution cw S → within (domains s) S →
  ac3_loop cw fuel q s = Ok (b, s') → b = true ∧ within (domains s') S.
Proof.
  intros Hwf HS. revert q s.
  induction fuel as [|fuel IH]; intros [|[x y] q] s Hin H; cbn [ac3_loop] in H.
  - inv_ok H. by injection H as -> ->.
  - done.
  - inv_ok H. by injection H as -> ->.
  - inv_ok H. destruct (revise_within _ _ _ _ _ _ Hwf HS Hin E) as [Hin' Hne].
    destruct a; [|by eapply IH].
    inv_ok H. inv_ok E0. case_bool_decide as Hnil; [|by eapply IH].
    subst. rewrite (dom_words_Some _ _ _ E0) in Hne. by destruct Hne.
Qed.

Lemma solve_Ok s r s' :
  solve cw s = Ok (r, s') →
  ∃ s1 b s2 returned A,
    enforce_node_consistency cw s = Ok ((), s1) ∧
    ac3 cw None s1 = Ok (b, s2) ∧
    backtrack cw (S (length (variables cw))) [] s2 = Ok (returned, A, s') ∧
    r = if returned : bool then Some A else None.
Proof.
  unfold solve. intros H. inv_ok H. inv_ok H. inv_ok H. destruct a1 as [returned A].
  inv_ok H. injection H as -> ->. destruct a. eauto 10.
Qed.

Lemma solve_evolves s r s' : solve cw s = Ok (r, s') → evolves s s'.
Proof.
  intros (s1 & b & s2 & returned & A & H1 & H2 & H3 & _)%solve_Ok.
  etrans; [by eapply enforce_loop_evolves|].
  etrans; [by eapply ac3_evolves|]. by eapply backtrack_evolves.
Qed.

Lemma solve_sound A s' :
  wf_crossword cw → run_solve cw = Ok (Some A, s') → solution cw A.
Proof.
  intros Hwf H.
  apply solve_Ok in H as (s1 & b & s2 & returned & A' & H1 & H2 & H3 & Hr).
  destruct returned; [|done]. injection Hr as ->.
  assert (shrinks (domains s2) (init_domains cw)) as Hsh.
  { apply (evolves_shrinks (init_state cw)).
    etrans; [by eapply enforce_loop_evolves|]. by eapply ac3_evolves. }
  assert (outcome_ok cw (init_domains cw) [] (true, A')) as Hout.
  { eapply backtrack_Ok; [constructor|by intros ? ?%elem_of_nil|done|exact Hsh|exact H3]. }
  unfold outcome_ok in Hout. simpl in Hout.
  destruct Hout as (_ & Hnd & Hsub & Hcons & Hlen & Hwords).
  split; [done|]. split; [|split].
  - intros v. split; [|apply Hsub]. intros Hv.
    assert (A'.*1 ≡ₚ variables cw) as Hperm.
    { apply submseteq_length_Permutation; [by apply NoDup_submseteq|].
      by rewrite length_fmap, Hlen. }
    by rewrite Hperm.
  - intros v w Hin. destruct (Hwords v w Hin) as [Hnil|Hw]; [by apply elem_of_nil in Hnil|].
    by apply (dom_words_init v).
  - by apply consistent_sound.
Qed.

End solve.

Section operations.
Context (cw : Crossword).

Lemma revise_not_neighbors x y s :
  overlaps_get cw x y = None → revise cw x y s = Ok (false, s).
Proof. unfold revise. by intros ->. Qed.


Lemma ac3_loop_nonempty fuel q s s' v :
  ac3_loop cw fuel q s = Ok (true, s') →
  dom_words (domains s) v ≠ [] → dom_words (domains s') v ≠ [].
Proof.
  revert q s. induction fuel as [|fuel IH]; intros [|[x y] q] s H Hv; cbn [ac3_loop] in H.
  - inv_ok H. by injection H as ->.
  - done.
  - inv_ok H. by injection H as ->.
  - inv_ok H. pose proof (revise_Ok _ _ _ _ _ _ E) as Hspec. destruct a.
    + inv_ok H. inv_ok E0. case_bool_decide as Hnil; [inv_ok H; done|].
      eapply IH; [done|]. destruct (decide (x = v)) as [<-|Hne].
      * by rewrite (dom_words_Some _ _ _ E0).
      * destruct (overlaps_get cw x y) as [[i j]|]; [|by destruct Hspec].
        destruct Hspec as (dx & _ & _ & ->). unfold wrote. simpl.
        by rewrite dom_words_insert_ne.
    + eapply IH; [done|]. destruct (overlaps_get cw x y) as [[i j]|].
      * by destruct Hspec as (dx & _ & _ & ->).
      * by destruct Hspec as [_ ->].
Qed.

Lemma solver_step_evolves s s' : solver_step cw s s' → evolves s s'.
Proof.
  intros [x y b H|arcs b H|fuel A r H].
  - by eapply revise_evolves.
  - by eapply ac3_evolves.
  - by eapply backtrack_evolves.
Qed.

Lemma solver_steps_evolves s s' : rtc (solver_step cw) s s' → evolves s s'.
Proof.
  induction 1 as [|s1 s2 s3 H _ IH]; [done|].
  etrans; [by apply solver_step_evolves|done].
Qed.

(** The operations that [solve] runs after [enforce_node_consistency]. *)
Lemma solve_steps r s' :
  run_solve cw = Ok (r, s') →
  ∃ s1, enforce_node_consistency cw (init_state cw) = Ok ((), s1) ∧
        rtc (solver_step cw) s1 s'.
Proof.
  intros (s1 & b & s2 & returned & A & H1 & H2 & H3 & _)%solve_Ok.
  exists s1. split; [done|].
  eapply rtc_l; [by eapply step_ac3|]. eapply rtc_once. by eapply step_backtrack.
Qed.

End operations.

(** * Main theorems *)

(** Decides a closed proposition by evaluation. *)
Ltac by_evaluation := apply (bool_decide_unpack _); vm_compute; exact I.

(** C1: backtracking soundness.  An assignment that [solve] returns gives
    every slot of the puzzle exactly one word, a word of the vocabulary; the
    words are pairwise distinct, each has the length of its slot, and at
    every overlap [(i, j)] of two slots the letters [word_x[i]] and
    [word_y[j]] are equal. *)
Theorem backtracking_soundness cw A s' :
  wf_crossword cw → run_solve cw = Ok (Some A, s') →
  NoDup A.*1 ∧ (∀ v, v ∈ variables cw ↔ v ∈ A.*1) ∧
  (∀ v w, (v, w) ∈ A → w ∈ words cw) ∧
  NoDup A.*2 ∧
  (∀ v w, (v, w) ∈ A → String.length w = Var.length v) ∧
  (∀ x y wx wy i j, (x, wx) ∈ A → (y, wy) ∈ A →
     overlaps_get cw x y = Some (i, j) → agree i j wx wy).
Proof. intros Hwf H. exact (solve_sound cw A s' Hwf H). Qed.

Lemma backtracking_soundness_witness :
  ∃ s', run_solve tall_puzzle = Ok (Some [(across3, "dog"); (down4, "coat")]%string, s') ∧
        NoDup [across3; down4] ∧ NoDup ["dog"; "coat"]%string.
Proof.
  exists (state_after (solve tall_puzzle) (init_state tall_puzzle)).
  assert (run_solve tall_puzzle =
          Ok (Some [(across3, "dog"); (down4, "coat")]%string,
              state_after (solve tall_puzzle) (init_state tall_puzzle))) as Hrun
    by (vm_compute; reflexivity).
  split; [exact Hrun|].
  destruct (backtracking_soundness tall_puzzle _ _ ltac:(by_evaluation) Hrun)
    as (Hkeys & _ & _ & Hwords & _).
  split; [exact Hkeys|exact Hwords].
Defined.

(** C2: backtracking completeness.  When some complete assignment of
    vocabulary words meets the length, distinctness and overlap constraints,
    [solve] returns an assignment, not [None], and it is such an assignment;
    it neither raises nor runs out of fuel. *)
Theorem backtracking_completeness cw Sol :
  wf_crossword cw → solution cw Sol →
  ∃ A s', run_solve cw = Ok (Some A, s') ∧ solution cw A.
Proof.
  intros Hwf HS. pose proof HS as (HSnd & HScover & HSvoc & HSwords & HSlen & HSov).
  destruct (enforce_init cw) as (s1 & H1 & Hev1 & Hok1 & Hkeep).
  assert (within (domains s1) Sol) as Hin1.
  { intros v w Hvw. apply Hkeep; [|by eapply HSvoc|by apply HSlen].
    apply HScover, list_elem_of_fmap. by exists (v, w). }
  destruct (ac3_total cw None s1 Hwf Hok1) as (b & s2 & H2).
  pose proof (ac3_evolves _ _ _ _ _ H2) as Hev2.
  pose proof H2 as H2'. rewrite ac3_unfold in H2'.
  apply (ac3_loop_within cw Sol) in H2' as [-> Hin2]; [|done..].
  pose proof (ac3_settles cw _ _ Hwf H2) as Hset2.
  assert (domains_ok cw (domains s2)) as Hok2.
  { eapply domains_ok_shrinks; [|done]. by apply evolves_shrinks. }
  destruct (backtrack_total cw (S (length (variables cw))) [] s2 Hwf)
    as ([returned A] & s3 & H3).
  { constructor. }
  { by intros ? ?%elem_of_nil. }
  { by intros ? ? ?%elem_of_nil. }
  { done. }
  { pose proof (length_filter (λ v, ¬ dict_has [] v) (variables cw)).
    unfold unassigned. lia. }
  destruct returned.
  - assert (run_solve cw = Ok (Some A, s3)) as Hrun.
    { unfold run_solve, solve. rewrite (M_bind_run _ _ _ _ _ H1).
      rewrite (M_bind_run _ _ _ _ _ H2). by rewrite (M_bind_run _ _ _ _ _ H3). }
    exists A, s3. split; [done|]. by eapply solve_sound.
  - exfalso. eapply (backtrack_exhausted cw _ Sol []); [done|done|constructor| | | | |exact H3];
      [by intros ? ?%elem_of_nil|by intros ? ?%elem_of_nil|done|done].
Qed.

Lemma backtracking_completeness_witness :
  ∃ A s', run_solve tall_puzzle = Ok (Some A, s') ∧ solution tall_puzzle A.
Proof.
  apply (backtracking_completeness tall_puzzle
           [(across3, "dog"); (down4, "coat")]%string); by_evaluation.
Defined.

(** C3: [ac3] returns [True] although a domain is empty.  In the puzzle
    with one slot of length 3 and the vocabulary {"hi"}, node consistency
    empties the slot's domain, there is no arc to revise, and [ac3()]
    returns [True] with the domain still empty. *)
Theorem ac3_true_with_empty_domain :
  ∃ s1 s2,
    enforce_node_consistency lonely_puzzle (init_state lonely_puzzle) = Ok ((), s1) ∧
    ac3 lonely_puzzle None s1 = Ok (true, s2) ∧
    across3 ∈ variables lonely_puzzle ∧ domains s2 !! across3 = Some [].
Proof.
  exists (state_after (enforce_node_consistency lonely_puzzle) (init_state lonely_puzzle)).
  eexists. split; [vm_compute; reflexivity|]. split; [vm_compute; reflexivity|].
  split; [by_evaluation|vm_compute; reflexivity].
Qed.

(** C4, as stated, fails: before node consistency the domains hold words too
    short for the overlap, and [revise] raises [IndexError] at [word_x[i]]. *)
Lemma revise_raises_on_short_word :
  overlaps_get mixed_puzzle across3 down3 = Some (1, 1) ∧
  domains (init_state mixed_puzzle) !! across3 = Some ["cat"; "a"]%string ∧
  revise mixed_puzzle across3 down3 (init_state mixed_puzzle) = Raise IndexError.
Proof. split; [|split]; vm_compute; reflexivity. Qed.

(** C4, amended: in a domain state where every slot has a domain of words of
    its own length, [revise(x, y)] returns; it returns [True] exactly when
    the domain of [x] changed; it leaves every other domain as it was; with
    an overlap [(i, j)], the words left in the domain of [x] are exactly
    those that had a word [w'] in the domain of [y] with [w[i] == w'[j]];
    with no overlap it returns [False] and changes nothing. *)
Theorem revise_semantics cw x y s :
  wf_crossword cw → domains_ok cw (domains s) →
  ∃ b s', revise cw x y s = Ok (b, s') ∧
    (b = true ↔ domains s' !! x ≠ domains s !! x) ∧
    (∀ v, v ≠ x → domains s' !! v = domains s !! v) ∧
    match overlaps_get cw x y with
    | Some (i, j) =>
        ∀ w, w ∈ dom_words (domains s') x ↔
             w ∈ dom_words (domains s) x ∧
             ∃ w', w' ∈ dom_words (domains s) y ∧ agree i j w w'
    | None => b = false ∧ s' = s
    end.
Proof.
  intros Hwf Hok. destruct (revise_total cw x y s Hwf Hok) as (b & s' & H).
  exists b, s'. split; [done|]. apply revise_Ok in H.
  destruct (overlaps_get cw x y) as [[i j]|].
  - destruct H as (dx & Hdx & H). cbn zeta in H.
    rewrite (dom_words_Some _ _ _ Hdx). destruct b; destruct H as [Hkeep ->].
    + unfold wrote. simpl. rewrite lookup_insert_eq, Hdx, dom_words_insert_eq.
      split; [split; [intros _; congruence|done]|]. split.
      * intros v Hv. by rewrite lookup_insert_ne.
      * intros w. rewrite list_elem_of_filter. unfold supported.
        rewrite Exists_exists. split; intros [H1 H2]; by split.
    + split; [split; [done|by intros []]|]. split; [done|].
      intros w. rewrite (dom_words_Some _ _ _ Hdx).
      split; [|by intros [? _]]. intros Hw. split; [done|].
      apply (proj1 (filter_eq_self _ _)) in Hkeep.
      by apply Exists_exists, (proj1 (Forall_forall _ _) Hkeep).
  - destruct H as [-> ->]. split; [split; [done|by intros []]|]. done.
Qed.

Lemma revise_semantics_witness :
  ∃ b s', revise tall_puzzle across3 down4 tall_checked = Ok (b, s') ∧
          (b = true ↔ domains s' !! across3 ≠ domains tall_checked !! across3).
Proof.
  destruct (revise_semantics tall_puzzle across3 down4 tall_checked
              ltac:(by_evaluation) ltac:(by_evaluation)) as (b & s' & H & Hb & _).
  exists b, s'. split; [exact H|exact Hb].
Defined.

(** C5: the node-consistency invariant.  When [enforce_node_consistency]
    has run, every word in every slot's domain has the slot's length, and
    that stays so through any sequence of [revise], [ac3] and [backtrack]
    that follows: in the state they end in, and in every state of the domain
    store written on the way. *)
Theorem node_consistency_invariant cw s0 u s s' :
  enforce_node_consistency cw s0 = Ok (u, s) → rtc (solver_step cw) s s' →
  node_consistent cw (domains s) ∧ node_consistent cw (domains s') ∧
  ∃ evs, log s' = evs ++ log s ∧ Forall (node_consistent cw) (written evs).
Proof.
  intros H0 Hsteps. destruct (enforce_node_consistency_Ok cw _ _ _ H0) as [_ Hnc].
  apply solver_steps_evolves in Hsteps. split; [done|]. split.
  - eapply node_consistent_shrinks; [|done]. by apply evolves_shrinks.
  - apply evolves_written in Hsteps as (evs & Hlog & Hall). exists evs. split; [done|].
    eapply Forall_impl; [exact Hall|]. intros D HD. simpl in HD.
    eapply node_consistent_shrinks; [exact HD|exact Hnc].
Qed.

Lemma node_consistency_invariant_witness :
  node_consistent tall_puzzle (domains tall_checked) ∧
  node_consistent tall_puzzle (domains tall_propagated).
Proof.
  assert (enforce_node_consistency tall_puzzle (init_state tall_puzzle) =
          Ok ((), tall_checked)) as H0 by (vm_compute; reflexivity).
  assert (ac3 tall_puzzle None tall_checked = Ok (true, tall_propagated)) as H1
    by (vm_compute; reflexivity).
  destruct (node_consistency_invariant tall_puzzle _ _ _ tall_propagated H0
              (rtc_once _ _ (step_ac3 _ _ _ _ _ H1))) as (Ha & Hb & _).
  split; [exact Ha|exact Hb].
Defined.

(** C6: arc-consistency soundness.  When [ac3()], seeded with all arcs,
    returns [True], then for every pair of slots [X], [Y] with an overlap
    [(i, j)] and every word [w] in the domain of [X] there is a word [w'] in
    the domain of [Y] with [w[i] == w'[j]]. *)
Theorem arc_consistency_soundness cw s s' X Y i j w :
  wf_crossword cw → ac3 cw None s = Ok (true, s') →
  overlaps_get cw X Y = Some (i, j) → w ∈ dom_words (domains s') X →
  Y ∈ neighbors cw X ∧ ∃ w', w' ∈ dom_words (domains s') Y ∧ agree i j w w'.
Proof.
  intros Hwf H Hov Hw. split; [by destruct (wf_neighbors _ _ _ _ _ Hwf Hov)|].
  destruct (ac3_settles cw _ _ Hwf H X Y i j Hov) as [Hin|[_ Hall]];
    [by apply elem_of_nil in Hin|].
  by apply Exists_exists, (proj1 (Forall_forall _ _) Hall).
Qed.

Lemma arc_consistency_soundness_witness :
  ∃ w', w' ∈ dom_words (domains tall_propagated) down4 ∧ agree 1 1 "dog" w'.
Proof.
  assert (ac3 tall_puzzle None tall_checked = Ok (true, tall_propagated)) as H1
    by (vm_compute; reflexivity).
  destruct (arc_consistency_soundness tall_puzzle _ _ across3 down4 1 1 "dog"
              ltac:(by_evaluation) H1 ltac:(vm_compute; reflexivity)
              ltac:(by_evaluation)) as [_ H].
  exact H.
Defined.

(** C7: domain monotonicity.  Over a whole run of [solve], every in-place
    write to the domain store leaves each slot a subset of the words it had
    just before, every restoration by [backtrack] brings back a store that
    was current earlier in the run, and so every store the run ever holds
    gives each slot a subset of its initial domain. *)
Theorem domain_monotonicity cw r s' :
  run_solve cw = Ok (r, s') →
  log_ok (init_domains cw) (log s') ∧
  domains s' = current (init_domains cw) (log s') ∧
  Forall (λ D, shrinks D (init_domains cw)) (written (log s')).
Proof.
  intros H. apply solve_evolves in H as (evs & Hlog & Hok & Hdom).
  simpl in *. rewrite app_nil_r in Hlog. subst evs.
  split; [done|]. split; [done|]. by apply log_ok_written.
Qed.

Lemma domain_monotonicity_witness :
  Forall (λ D, shrinks D (init_domains tall_puzzle))
    (written (log (state_after (solve tall_puzzle) (init_state tall_puzzle)))).
Proof.
  assert (run_solve tall_puzzle =
          Ok (Some [(across3, "dog"); (down4, "coat")]%string,
              state_after (solve tall_puzzle) (init_state tall_puzzle))) as Hrun
    by (vm_compute; reflexivity).
  destruct (domain_monotonicity tall_puzzle _ _ Hrun) as (_ & _ & H). exact H.
Defined.

(** C8: idempotence of re-propagation.  On a state in which [ac3()], seeded
    with all arcs, has returned [True], running [ac3()] again returns [True]
    and changes nothing. *)
Theorem ac3_idempotent cw s s' :
  wf_crossword cw → ac3 cw None s = Ok (true, s') →
  ac3 cw None s' = Ok (true, s').
Proof. intros Hwf H. apply ac3_settled; [done|]. by eapply ac3_settles. Qed.

Lemma ac3_idempotent_witness :
  ac3 tall_puzzle None tall_propagated = Ok (true, tall_propagated).
Proof.
  apply (ac3_idempotent tall_puzzle tall_checked); [by_evaluation|].
  vm_compute; reflexivity.
Defined.

(** C9: graceful unsolvability.  When the vocabulary has no word of the
    length of some slot, [solve] returns [None]: it neither raises nor runs
    out of fuel. *)
Theorem graceful_unsolvability cw v :
  wf_crossword cw → v ∈ variables cw →
  Forall (λ w, String.length w ≠ Var.length v) (words cw) →
  ∃ s', run_solve cw = Ok (None, s').
Proof.
  intros Hwf Hv Hnone.
  destruct (enforce_init cw) as (s1 & H1 & Hev1 & Hok1 & _).
  destruct (ac3_total cw None s1 Hwf Hok1) as (b & s2 & H2).
  pose proof (ac3_evolves _ _ _ _ _ H2) as Hev2.
  assert (domains_ok cw (domains s2)) as Hok2.
  { eapply domains_ok_shrinks; [|done]. by apply evolves_shrinks. }
  assert (dom_words (domains s2) v = []) as Hempty.
  { destruct (proj1 Hok2 v Hv) as [ws Hws]. rewrite (dom_words_Some _ _ _ Hws).
    destruct ws as [|w ws]; [done|]. exfalso.
    pose proof (proj2 Hok2 v _ Hv Hws) as Hlen. apply Forall_cons in Hlen as [Hlen _].
    assert (w ∈ words cw) as Hw.
    { apply (dom_words_init cw v).
      apply (shrinks_dom_words (domains s2)); [|rewrite (dom_words_Some _ _ _ Hws); by left].
      apply (evolves_shrinks (init_state cw)). by etrans. }
    by apply (proj1 (Forall_forall _ _) Hnone w Hw). }
  set (s3 := mkState (domains s2) (Entered [] (domains s2) :: log s2)).
  destruct (select_unassigned_variable_total cw [] s3) as [var Hsel].
  { apply Hok2. }
  { intros Hnil. assert (v ∈ unassigned cw []) as Hun.
    { apply elem_of_unassigned. split; [done|]. by intros ?%elem_of_nil. }
    rewrite Hnil in Hun. by apply elem_of_nil in Hun. }
  pose proof (select_unassigned_variable_Ok _ _ _ _ _ Hsel) as (_ & Hun & Hmin).
  pose proof Hun as [Hvar _]%elem_of_unassigned.
  destruct (order_domain_values_total cw var [] s3 Hwf Hok2 Hvar) as [values Hord].
  pose proof (order_domain_values_Ok _ _ _ _ _ _ Hord) as (_ & ws & Hws & Hperm).
  assert (values = []) as ->.
  { specialize (Hmin v). simpl in Hmin, Hws. rewrite Hempty in Hmin.
    rewrite (dom_words_Some _ _ _ Hws) in Hmin.
    apply Permutation_length in Hperm. apply nil_length_inv.
    assert (v ∈ unassigned cw []) as Hunv.
    { apply elem_of_unassigned. split; [done|]. by intros ?%elem_of_nil. }
    specialize (Hmin Hunv). simpl in Hmin. lia. }
  exists s3. unfold run_solve, solve. rewrite (M_bind_run _ _ _ _ _ H1).
  rewrite (M_bind_run _ _ _ _ _ H2).
  assert (backtrack cw (S (length (variables cw))) [] s2 = Ok (false, [], s3)) as H3.
  { cbn [backtrack]. erewrite M_bind_run; [|reflexivity].
    erewrite M_bind_run; [|reflexivity].
    assert (assignment_complete cw [] = false) as ->.
    { apply bool_decide_eq_false. simpl. destruct (variables cw); [|done].
      by apply elem_of_nil in Hv. }
    fold s3. rewrite (M_bind_run _ _ _ _ _ Hsel).
    by rewrite (M_bind_run _ _ _ _ _ Hord). }
  by rewrite (M_bind_run _ _ _ _ _ H3).
Qed.

Lemma graceful_unsolvability_witness : ∃ s', run_solve lonely_puzzle = Ok (None, s').
Proof. apply (graceful_unsolvability lonely_puzzle across3); by_evaluation. Defined.

(** C10: [backtrack] leaves the domain store alone.  From a state in which
    [ac3()] has returned [True], a call of [backtrack] never writes to a
    domain in place; every call of [backtrack] it makes finds the store of
    that state, every [ac3()] it makes finds that store, returns [True] and
    leaves it, every restoration puts that store back, and the call ends
    with that store. *)
Theorem backtrack_leaves_domains cw s1 s2 fuel A r s3 :
  wf_crossword cw → ac3 cw None s1 = Ok (true, s2) →
  backtrack cw fuel A s2 = Ok (r, s3) →
  domains s3 = domains s2 ∧
  ∃ evs, log s3 = evs ++ log s2 ∧ Forall (quiet (domains s2)) evs.
Proof.
  intros Hwf H2 H3. eapply (backtrack_quiet cw); [done| |done]. by eapply ac3_settles.
Qed.

Lemma backtrack_leaves_domains_witness :
  domains (state_after (backtrack tall_puzzle 3 []) tall_propagated) =
  domains tall_propagated.
Proof.
  assert (ac3 tall_puzzle None tall_checked = Ok (true, tall_propagated)) as H2
    by (vm_compute; reflexivity).
  assert (backtrack tall_puzzle 3 [] tall_propagated =
          Ok (true, [(across3, "dog"); (down4, "coat")]%string,
              state_after (backtrack tall_puzzle 3 []) tall_propagated)) as H3
    by (vm_compute; reflexivity).
  destruct (backtrack_leaves_domains tall_puzzle _ _ _ _ _ _
              ltac:(by_evaluation) H2 H3) as [H _].
  exact H.
Defined.

(** * Further properties *)

(** Runs a closed computation. *)
Ltac by_run := vm_compute; reflexivity.

(** ** enforce_node_consistency *)

Lemma filter_filter_same {A} (P : A → Prop) `{∀ x, Decision (P x)} (l : list A) :
  filter P (filter P l) = filter P l.
Proof. apply filter_eq_self, Forall_forall. by intros x [? _]%list_elem_of_filter. Qed.

Lemma list_difference_lengths (v : Var.t) (ws : list string) :
  list_difference ws (filter (λ w, String.length w ≠ Var.length v) ws) =
  filter (λ w, String.length w = Var.length v) ws.
Proof.
  apply list_difference_filter. intros w Hw. rewrite list_elem_of_filter. tauto.
Qed.

Lemma enforce_loop_filters vars s :
  (∀ v, v ∈ vars → is_Some (domains s !! v)) →
  ∃ s', enforce_loop vars s = Ok ((), s') ∧
    (∀ v ws, v ∈ vars → domains s !! v = Some ws →
       domains s' !! v = Some (filter (λ w, String.length w = Var.length v) ws)) ∧
    (∀ v, v ∉ vars → domains s' !! v = domains s !! v).
Proof.
  revert s. induction vars as [|var rest IH]; intros s Hkeys.
  - exists s. split; [done|]. split; [by intros v ws ?%elem_of_nil|done].
  - destruct (Hkeys var) as [dv Hdv]; [by left|].
    cbn [enforce_loop]. rewrite (M_bind_run _ _ _ _ _ (domain_of_run _ _ _ Hdv)).
    set (s1 := wrote var (filter (λ w, String.length w = Var.length var) dv) s).
    assert (domain_discard var (filter (λ w, String.length w ≠ Var.length var) dv) s
            = Ok ((), s1)) as Hd.
    { unfold domain_discard. rewrite Hdv. cbn zeta.
      by rewrite list_difference_lengths. }
    rewrite (M_bind_run _ _ _ _ _ Hd).
    destruct (IH s1) as (s' & Hrun & Hin & Hout).
    { intros v Hv. unfold s1, wrote. simpl.
      destruct (decide (var = v)) as [<-|Hne]; [rewrite lookup_insert_eq; eauto|].
      rewrite lookup_insert_ne by done. apply Hkeys. by right. }
    exists s'. split; [done|]. split.
    + intros v ws Hv Hws. destruct (decide (v ∈ rest)) as [Hrest|Hrest].
      * destruct (decide (var = v)) as [<-|Hne].
        -- rewrite (Hin var (filter (λ w, String.length w = Var.length var) dv) Hrest).
           ++ rewrite filter_filter_same. congruence.
           ++ unfold s1, wrote. simpl. by rewrite lookup_insert_eq.
        -- apply Hin; [done|]. unfold s1, wrote. simpl. by rewrite lookup_insert_ne.
      * apply elem_of_cons in Hv as [->|?]; [|done].
        rewrite (Hout var Hrest). unfold s1, wrote. simpl.
        rewrite lookup_insert_eq. congruence.
    + intros v Hv. apply not_elem_of_cons in Hv as [Hne Hv].
      rewrite (Hout v Hv). unfold s1, wrote. simpl. by rewrite lookup_insert_ne.
Qed.

(** X1: what [enforce_node_consistency] leaves.  In a state where every slot
    has a domain it returns without raising; afterwards the domain of every
    slot holds exactly the words it held before that have the slot's length,
    and the entry of any other key is untouched. *)
Theorem enforce_node_consistency_filters cw s :
  (∀ v, v ∈ variables cw → is_Some (domains s !! v)) →
  ∃ s', enforce_node_consistency cw s = Ok ((), s') ∧
    (∀ v ws, v ∈ variables cw → domains s !! v = Some ws →
       domains s' !! v = Some (filter (λ w, String.length w = Var.length v) ws)) ∧
    (∀ v, v ∉ variables cw → domains s' !! v = domains s !! v).
Proof. intros Hkeys. by apply enforce_loop_filters. Qed.

Lemma enforce_node_consistency_filters_witness :
  domains (state_after (enforce_node_consistency mixed_puzzle) (init_state mixed_puzzle))
    !! across3 = Some ["cat"]%string.
Proof.
  destruct (enforce_node_consistency_filters mixed_puzzle (init_state mixed_puzzle))
    as (s' & Hrun & Hin & _).
  { apply Forall_forall. by_evaluation. }
  unfold state_after. rewrite Hrun.
  by rewrite (Hin across3 ["cat"; "a"]%string ltac:(by_evaluation) ltac:(by_run)).
Defined.

(** X2: the domains that the solver starts from.  After [__init__] and
    [enforce_node_consistency] the domain of every slot is the vocabulary
    restricted to the words of the slot's length. *)
Theorem node_consistent_start cw :
  ∃ s1, enforce_node_consistency cw (init_state cw) = Ok ((), s1) ∧
    ∀ v, v ∈ variables cw →
      domains s1 !! v = Some (filter (λ w, String.length w = Var.length v) (words cw)).
Proof.
  destruct (enforce_loop_filters (variables cw) (init_state cw)) as (s1 & H & Hin & _).
  { intros v Hv. simpl. rewrite init_domains_lookup by done. eauto. }
  exists s1. split; [done|]. intros v Hv. apply Hin; [done|].
  simpl. by apply init_domains_lookup.
Qed.

(** ** revise *)

(** A run of the loop of [revise] that returns has evaluated [any] on every
    word. *)
Lemma revise_loop_evaluated y i j dx s rm s' :
  revise_loop y i j dx s = Ok (rm, s') →
  dx = [] ∨ ∃ dy, domains s !! y = Some dy ∧
    Forall (λ w, any_agree w i j dy = Ok (bool_decide (supported i j dy w))) dx.
Proof.
  revert rm s'. induction dx as [|w dx IH]; intros rm s' H; [by left|right].
  cbn [revise_loop] in H. inv_ok H. inv_ok E. subst. inv_ok H. inv_ok E0. subst.
  inv_ok H. exists a. split; [done|]. constructor.
  - by rewrite E0, (any_agree_Ok _ _ _ _ _ E0).
  - destruct (IH _ _ E1) as [->|(dy & Hdy & Hall)]; [done|]. by replace a with dy by congruence.
Qed.

Lemma revise_loop_supported y i j dx dy s :
  domains s !! y = Some dy →
  Forall (λ w, any_agree w i j dy = Ok true) dx →
  revise_loop y i j dx s = Ok ([], s).
Proof.
  intros Hdy. induction 1 as [|w dx Hw _ IH]; [done|].
  cbn [revise_loop]. rewrite (M_bind_run _ _ _ _ _ (domain_of_run _ _ _ Hdy)).
  rewrite (M_bind_run _ _ _ _ _ (lift_run _ _ _ Hw)).
  by rewrite (M_bind_run _ _ _ _ _ IH).
Qed.

(** X3: [revise] is idempotent.  When [revise(x, y)] has returned, calling it
    again at once returns [False] and changes nothing: it raises nothing, and
    every word it left in the domain of [x] has a partner in the domain of
    [y]. *)
Theorem revise_idempotent cw x y s b s' :
  wf_crossword cw → revise cw x y s = Ok (b, s') → revise cw x y s' = Ok (false, s').
Proof.
  intros Hwf H. pose proof (revise_Ok _ _ _ _ _ _ H) as Hspec.
  unfold revise in *. destruct (overlaps_get cw x y) as [[i j]|] eqn:Hxy.
  - destruct (wf_overlap _ _ _ _ _ Hwf Hxy) as (_ & _ & Hne & _).
    destruct Hspec as (dx & Hdx & Hspec). cbn zeta in Hspec.
    destruct b; destruct Hspec as [Hkeep ->]; [|done].
    inv_ok H. inv_ok E. subst. inv_ok H.
    assert (a = dx) as -> by congruence.
    apply revise_loop_evaluated in E0 as [->|(dy & Hdy & Hall)]; [done|].
    set (keep := filter (supported i j (dom_words (domains s) y)) dx).
    assert (domains (wrote x keep s) !! x = Some keep) as Hx'.
    { unfold wrote. simpl. by rewrite lookup_insert_eq. }
    assert (domains (wrote x keep s) !! y = Some dy) as Hy'.
    { unfold wrote. simpl. by rewrite lookup_insert_ne. }
    rewrite (M_bind_run _ _ _ _ _ (domain_of_run _ _ _ Hx')).
    assert (Forall (λ w, any_agree w i j dy = Ok true) keep) as Hsupp.
    { apply Forall_forall. intros w [Hsup Hw]%list_elem_of_filter.
      rewrite (dom_words_Some _ _ _ Hdy) in Hsup.
      rewrite (proj1 (Forall_forall _ _) Hall w Hw). by rewrite bool_decide_eq_true_2. }
    by rewrite (M_bind_run _ _ _ _ _ (revise_loop_supported y i j keep dy _ Hy' Hsupp)).
  - by destruct Hspec as [-> ->].
Qed.

Lemma revise_idempotent_witness :
  revise tall_puzzle across3 down4
    (state_after (revise tall_puzzle across3 down4) tall_checked) =
  Ok (false, state_after (revise tall_puzzle across3 down4) tall_checked).
Proof.
  apply (revise_idempotent tall_puzzle across3 down4 tall_checked true);
    [by_evaluation|by_run].
Defined.

(** ** ac3 *)

Section ac3_failure.
Context (cw : Crossword).

Lemma shrinks_nonempty D' D v : shrinks D' D → dom_words D' v ≠ [] → dom_words D v ≠ [].
Proof.
  intros Hsh Hne Hnil. pose proof (shrinks_dom_words _ _ v Hsh) as Hsub.
  rewrite Hnil in Hsub. destruct (dom_words D' v) as [|w ws]; [done|].
  by apply (elem_of_nil w), Hsub; left.
Qed.

(** [ac3] reports failure only after a revision that removed the last word of
    a domain. *)
Lemma ac3_loop_false fuel q s s' :
  ac3_loop cw fuel q s = Ok (false, s') →
  ∃ x y, is_Some (overlaps_get cw x y) ∧
         domains s' !! x = Some [] ∧ dom_words (domains s) x ≠ [].
Proof.
  revert q s. induction fuel as [|fuel IH]; intros [|[x y] q] s H; cbn [ac3_loop] in H.
  - inv_ok H. by injection H.
  - done.
  - inv_ok H. by injection H.
  - inv_ok H. pose proof (revise_evolves _ _ _ _ _ _ E) as Hsh%evolves_shrinks.
    assert (∀ q', ac3_loop cw fuel q' s0 = Ok (false, s') →
              ∃ x y, is_Some (overlaps_get cw x y) ∧
                     domains s' !! x = Some [] ∧ dom_words (domains s) x ≠ []) as Hrec.
    { intros q' Hq'. destruct (IH _ _ Hq') as (x' & y' & Hov & Hempty & Hne).
      exists x', y'. split; [done|]. split; [done|]. by eapply shrinks_nonempty. }
    destruct a; [|by eapply Hrec].
    inv_ok H. inv_ok E0. subst. case_bool_decide as Hnil; [|by eapply Hrec].
    inv_ok H. injection H as <-. subst a.
    apply revise_Ok in E. destruct (overlaps_get cw x y) as [[i j]|] eqn:Hxy; [|by destruct E].
    destruct E as (dx & Hdx & Hkeep & ->). exists x, y. rewrite Hxy.
    split; [eauto|]. split; [done|]. rewrite (dom_words_Some _ _ _ Hdx).
    intros ->. by apply Hkeep.
Qed.

End ac3_failure.

(** X4: what [False] from [ac3] means.  When [ac3] returns [False], for any
    seeding of the queue, some domain that was not empty when [ac3] was
    called is empty when it returns. *)
Theorem ac3_false_emptied cw arcs s s' :
  ac3 cw arcs s = Ok (false, s') →
  ∃ x, domains s' !! x = Some [] ∧ dom_words (domains s) x ≠ [].
Proof.
  rewrite ac3_unfold. intros (x & y & _ & Hempty & Hne)%ac3_loop_false. eauto.
Qed.

Lemma ac3_false_emptied_witness :
  ∃ x, domains (state_after (ac3 clash_puzzle None)
                  (state_after (enforce_node_consistency clash_puzzle)
                     (init_state clash_puzzle))) !! x = Some [].
Proof.
  destruct (ac3_false_emptied clash_puzzle None
              (state_after (enforce_node_consistency clash_puzzle) (init_state clash_puzzle))
              (state_after (ac3 clash_puzzle None)
                 (state_after (enforce_node_consistency clash_puzzle)
                    (init_state clash_puzzle))) ltac:(by_run)) as (x & Hx & _).
  by exists x.
Defined.

(** X5: [True] from [ac3] and empty domains.  When [ac3] returns [True], for
    any seeding of the queue, every domain that was not empty when [ac3] was
    called is not empty when it returns. *)
Theorem ac3_true_keeps_nonempty cw arcs s s' v :
  ac3 cw arcs s = Ok (true, s') →
  dom_words (domains s) v ≠ [] → dom_words (domains s') v ≠ [].
Proof. rewrite ac3_unfold. apply ac3_loop_nonempty. Qed.

Lemma ac3_true_keeps_nonempty_witness : dom_words (domains tall_propagated) across3 ≠ [].
Proof.
  apply (ac3_true_keeps_nonempty tall_puzzle None tall_checked); [by_run|by_evaluation].
Defined.

(** X6: [ac3] loses no solution.  When every word of a solution of the puzzle
    is in the domain of its slot, [ac3], for any seeding of the queue, does
    not return [False], and every word of the solution is still in the
    domain of its slot afterwards. *)
Theorem ac3_keeps_solutions cw arcs Sol s b s' :
  wf_crossword cw → solution cw Sol → within (domains s) Sol →
  ac3 cw arcs s = Ok (b, s') → b = true ∧ within (domains s') Sol.
Proof. intros Hwf HSol Hin. rewrite ac3_unfold. by apply ac3_loop_within. Qed.

Lemma ac3_keeps_solutions_witness :
  "dog"%string ∈ dom_words (domains tall_propagated) across3.
Proof.
  destruct (ac3_keeps_solutions tall_puzzle None tall_solution tall_checked true
              tall_propagated ltac:(by_evaluation) ltac:(by_evaluation)) as [_ Hin];
    [|by_run|apply Hin; by_evaluation].
  intros v w Hvw.
  repeat (apply elem_of_cons in Hvw as [[= -> ->]|Hvw]; [by_evaluation|]).
  by apply elem_of_nil in Hvw.
Defined.

(** X7: [ac3] terminates.  In a state where every slot has a domain of words
    of its own length, [ac3], for any seeding of the queue, returns: the
    loop ends within the bound on its iterations, and nothing is raised. *)
Theorem ac3_terminates cw arcs s :
  wf_crossword cw → domains_ok cw (domains s) → ∃ b s', ac3 cw arcs s = Ok (b, s').
Proof. intros Hwf Hok. by apply ac3_total. Qed.

Lemma ac3_terminates_witness :
  ∃ b s', ac3 tall_puzzle (Some [(down4, across3)]) tall_checked = Ok (b, s').
Proof. apply ac3_terminates; by_evaluation. Defined.

(** ** consistent and assignment_complete *)

(** X8: what [consistent] checks.  On an assignment it returns [True]
    exactly when the assigned words are pairwise distinct, each has the
    length of its slot, and the words of any two overlapping slots have the
    same letter at the overlap. *)
Theorem consistent_iff cw (A : Assignment) :
  wf_crossword cw → NoDup A.*1 → consistent cw A = Ok true ↔ satisfies cw A.
Proof.
  intros Hwf Hnd. split; [by apply consistent_sound|by apply consistent_complete].
Qed.

Lemma consistent_iff_witness : satisfies tall_puzzle tall_solution.
Proof.
  apply (consistent_iff tall_puzzle tall_solution); [by_evaluation|by_evaluation|by_run].
Defined.

(** X9: [consistent] on words that fit.  When every assigned word has the
    length of its slot, [consistent] raises nothing: it returns [True] or
    [False], according to whether the constraints hold. *)
Theorem consistent_decides cw (A : Assignment) :
  wf_crossword cw → NoDup A.*1 → fits A →
  consistent cw A = Ok (bool_decide (satisfies cw A)).
Proof.
  intros Hwf Hnd Hfits. destruct (consistent_total cw A Hwf Hfits) as [[] Hb].
  - rewrite Hb. f_equal. symmetry. apply bool_decide_eq_true_2. by apply consistent_sound.
  - rewrite Hb. f_equal. symmetry. apply bool_decide_eq_false_2. intros Hsat.
    by rewrite (consistent_complete cw A Hnd Hsat) in Hb.
Qed.

Lemma consistent_decides_witness :
  consistent tall_puzzle [(across3, "cat"); (down4, "coat")]%string =
  Ok (bool_decide (satisfies tall_puzzle [(across3, "cat"); (down4, "coat")]%string)).
Proof.
  apply consistent_decides; [by_evaluation|by_evaluation|].
  intros v w Hvw.
  repeat (apply elem_of_cons in Hvw as [[= -> ->]|Hvw]; [reflexivity|]).
  by apply elem_of_nil in Hvw.
Defined.

Section consistent_edge.
Context (cw : Crossword).

Lemma get_None_short w j : String.length w ≤ j → String.get j w = None.
Proof.
  revert j. induction w as [|c w IH]; intros j Hj; [by destruct j|].
  destruct j as [|j]; simpl in *; [lia|]. apply IH. lia.
Qed.

Lemma overlaps_agree_short x y wx wy i j nbs :
  x ≠ y → overlaps_get cw x y = Some (i, j) →
  is_Some (String.get i wx) → String.get j wy = None →
  y ∈ nbs → x ∉ nbs →
  overlaps_agree cw [(x, wx); (y, wy)] x wx nbs = Raise IndexError.
Proof.
  intros Hne Hxy [a Ha] Hshort. induction nbs as [|nb nbs IH]; intros Hy Hx.
  - by apply elem_of_nil in Hy.
  - apply not_elem_of_cons in Hx as [Hnbx Hx]. cbn [overlaps_agree].
    destruct (decide (nb = y)) as [->|Hnby].
    + rewrite (proj2 (dict_has_true _ _)) by (simpl; right; left).
      rewrite Hxy. rewrite (Outcome_bind_run _ _ _ (proj2 (getitem_Ok _ _ _) Ha)).
      assert (dict_get [(x, wx); (y, wy)] y = Ok wy) as Hget.
      { unfold dict_get. simpl. rewrite decide_False by done. by rewrite decide_True. }
      rewrite (Outcome_bind_run _ _ _ Hget). unfold getitem. by rewrite Hshort.
    + rewrite (proj2 (dict_has_false _ _)).
      * apply IH; [|done]. by apply elem_of_cons in Hy as [?|?].
      * simpl. intros [?|[?|?%elem_of_nil]%elem_of_cons]%elem_of_cons; done.
Qed.

End consistent_edge.

(** X10: [consistent] on a word that is too short.  Take two overlapping
    slots [x], [y], a word of the right length for [x], and for [y] a word
    too short to reach the overlap.  When the entry of [x] comes first in the
    dict, [consistent] raises [IndexError], at [assignment[neighbor][j]];
    when the entry of [y] comes first, it returns [False]. *)
Theorem consistent_depends_on_order cw x y wx wy i j :
  wf_crossword cw → overlaps_get cw x y = Some (i, j) →
  String.length wx = Var.length x → String.length wy ≤ j →
  consistent cw [(x, wx); (y, wy)] = Raise IndexError ∧
  consistent cw [(y, wy); (x, wx)] = Ok false.
Proof.
  intros Hwf Hxy Hlx Hly.
  destruct (wf_overlap _ _ _ _ _ Hwf Hxy) as (Hx & Hy & Hne & Hi & Hj & _).
  destruct (wf_neighbors _ _ _ _ _ Hwf Hxy) as [Hnb _]. split.
  - unfold consistent. cbn [consistent_loop].
    rewrite bool_decide_eq_false_2 by apply not_elem_of_nil.
    rewrite bool_decide_eq_false_2 by (intros ?; done).
    rewrite (overlaps_agree_short cw x y wx wy i j); [done|done|done| | |done|].
    + apply get_is_Some. lia.
    + by apply get_None_short.
    + intros [_ [? _]]%elem_of_neighbors. done.
  - unfold consistent. cbn [consistent_loop].
    rewrite bool_decide_eq_false_2 by apply not_elem_of_nil.
    rewrite bool_decide_eq_true_2; [done|]. lia.
Qed.

Lemma consistent_depends_on_order_witness :
  consistent tall_puzzle [(across3, "cat"); (down4, "a")]%string = Raise IndexError ∧
  consistent tall_puzzle [(down4, "a"); (across3, "cat")]%string = Ok false.
Proof.
  apply (consistent_depends_on_order tall_puzzle across3 down4 "cat" "a" 1 1);
    [by_evaluation|by_run|reflexivity|simpl; lia].
Defined.

(** X11: what [assignment_complete] means.  For a dict whose keys are slots
    of the puzzle, comparing the two sizes is the same as asking that every
    slot has an entry. *)
Theorem assignment_complete_iff cw (A : Assignment) :
  NoDup (variables cw) → NoDup A.*1 → A.*1 ⊆ variables cw →
  assignment_complete cw A = true ↔ ∀ v, v ∈ variables cw → v ∈ A.*1.
Proof.
  intros Hvars Hnd Hsub. unfold assignment_complete. rewrite bool_decide_eq_true. split.
  - intros Hlen v Hv.
    assert (A.*1 ≡ₚ variables cw) as Hperm.
    { apply submseteq_length_Permutation; [by apply NoDup_submseteq|].
      by rewrite length_fmap, Hlen. }
    by rewrite Hperm.
  - intros Hcover. rewrite <-(length_fmap fst A). apply Permutation_length.
    apply NoDup_Permutation; [done..|]. intros v. split; [apply Hsub|apply Hcover].
Qed.

Lemma assignment_complete_iff_witness : down4 ∈ tall_solution.*1.
Proof.
  apply (proj1 (assignment_complete_iff tall_puzzle tall_solution
                  ltac:(by_evaluation) ltac:(by_evaluation)
                  ltac:(by_evaluation)) ltac:(by_run));
    by_evaluation.
Defined.

(** ** The heuristics *)

Section select.
Context (cw : Crossword).

Lemma sort_criteria_key D v k :
  sort_criteria cw D v = Ok k →
  k = (length (dom_words D v), (- Z.of_nat (length (neighbors cw v)))%Z).
Proof.
  unfold sort_criteria. intros H. inv_ok H. apply lookup_domain_Ok in E.
  inv_ok H. subst. by rewrite (dom_words_Some _ _ _ E).
Qed.

End select.

(** X12: the choice of [select_unassigned_variable].  It leaves the state
    alone and returns a slot of the puzzle that has no entry in the
    assignment; no such slot has a smaller domain, and among those with a
    domain of the same size none has more neighbors. *)
Theorem select_unassigned_variable_best cw (A : Assignment) s var s' :
  select_unassigned_variable cw A s = Ok (var, s') →
  s' = s ∧ var ∈ variables cw ∧ (var ∉ A.*1) ∧
  ∀ v, v ∈ variables cw → v ∉ A.*1 →
    length (dom_words (domains s) var) < length (dom_words (domains s) v) ∨
    (length (dom_words (domains s) var) = length (dom_words (domains s) v) ∧
     length (neighbors cw v) ≤ length (neighbors cw var)).
Proof.
  intros H. pose proof (select_unassigned_variable_Ok _ _ _ _ _ H) as (Hs & Hun & _).
  split; [done|]. clear Hs. apply elem_of_unassigned in Hun as [Hvar Hfresh].
  split; [done|]. split; [done|]. intros v Hv Hvfresh.
  assert (v ∈ unassigned cw A) as Hin by by apply elem_of_unassigned.
  unfold select_unassigned_variable in H. inv_ok H. inv_ok E.
  destruct (unassigned cw A) as [|u rest]; [done|].
  inv_ok H. inv_ok H.
  destruct (min_loop_Ok _ _ _ _ _ _ H E) as (_ & kv & Hkv & Hfirst & Hrest).
  assert (∃ ku, sort_criteria cw (domains s) v = Ok ku ∧ ¬ key_lt ku kv) as (ku & Hku & Hnlt).
  { apply elem_of_cons in Hin as [->|Hin]; [eauto|by apply Hrest]. }
  apply sort_criteria_key in Hkv as ->. apply sort_criteria_key in Hku as ->.
  unfold key_lt in Hnlt. simpl in Hnlt. lia.
Qed.

Lemma select_unassigned_variable_best_witness :
  down4 ∈ variables tall_puzzle ∧ down4 ∉ [(across3, "dog"%string)].*1.
Proof.
  destruct (select_unassigned_variable_best tall_puzzle [(across3, "dog"%string)]
              tall_propagated down4 tall_propagated ltac:(by_run))
    as (_ & Hvar & Hfresh & _).
  split; [exact Hvar|exact Hfresh].
Defined.

(** X13: [select_unassigned_variable] with nothing to select.  When every
    slot of the puzzle has an entry in the assignment, it raises
    [ValueError], from [min] of an empty list. *)
Theorem select_unassigned_variable_empty cw (A : Assignment) s :
  (∀ v, v ∈ variables cw → v ∈ A.*1) →
  select_unassigned_variable cw A s = Raise ValueError.
Proof.
  intros Hall. unfold select_unassigned_variable.
  erewrite M_bind_run; [|reflexivity].
  assert (unassigned cw A = []) as ->; [|done].
  destruct (unassigned cw A) as [|v rest] eqn:Hlist; [done|].
  assert (v ∈ unassigned cw A) as [Hv Hfresh]%elem_of_unassigned by (rewrite Hlist; left).
  destruct Hfresh. by apply Hall.
Qed.

Lemma select_unassigned_variable_empty_witness :
  select_unassigned_variable tall_puzzle tall_solution tall_propagated = Raise ValueError.
Proof.
  apply select_unassigned_variable_empty. apply Forall_forall. by_evaluation.
Defined.








(** ** backtrack *)

Section backtrack_undo.
Context (cw : Crossword).

Lemma try_values_undo rec var values (A : Assignment) s r s' :
  (∀ A s r s', rec A s = Ok (r, s') → undone_or_complete cw A s r s') →
  var ∉ A.*1 →
  try_values cw rec var values A s = Ok (r, s') → undone_or_complete cw A s r s'.
Proof.
  intros Hrec Hfresh. revert s.
  induction values as [|value rest IH]; intros s H; cbn [try_values] in H.
  - inv_ok H. by injection H as -> ->.
  - rewrite (dict_set_fresh _ _ _ Hfresh) in H.
    inv_ok H. inv_ok E. destruct a; [|by eapply IH].
    inv_ok H. inv_ok E0. inv_ok H. apply propagate_Ok in E0 as (s1 & _ & ->).
    inv_ok H. destruct a0 as [returned A2].
    assert (undone_or_complete cw (A ++ [(var, value)])
              (mkState (domains s1) (Propagated (domains s) a (domains s1) :: log s1))
              (returned, A2) s0) as Hout.
    { destruct a; [by eapply Hrec|]. inv_ok E0. injection E0 as -> -> ->. by split. }
    unfold undone_or_complete in Hout. destruct returned; simpl in H, Hout.
    + destruct Hout as [[B ->] Hcomplete]. rewrite bool_decide_eq_true_2 in H by by destruct A.
      inv_ok H. injection H as -> ->. split; [|done].
      exists ([(var, value)] ++ B). by rewrite (assoc_L (++)).
    + destruct Hout as [-> _]. inv_ok H. inv_ok E1. subst. inv_ok H. inv_ok E1.
      rewrite (dict_del_snoc _ _ _ Hfresh) in E1. injection E1 as <-.
      apply IH in H. unfold undone_or_complete in *. by destruct r.1.
Qed.

Lemma backtrack_undo fuel (A : Assignment) s r s' :
  backtrack cw fuel A s = Ok (r, s') → undone_or_complete cw A s r s'.
Proof.
  revert A s r s'. induction fuel as [|fuel IH]; intros A s r s' H;
    cbn [backtrack] in H; [done|].
  inv_ok H. inv_ok E. inv_ok H. inv_ok E. subst.
  destruct (assignment_complete cw A) eqn:Hcomplete.
  - inv_ok H. injection H as -> ->. split; [|done]. exists []. by rewrite app_nil_r.
  - inv_ok H. apply select_unassigned_variable_Ok in E as (-> & Hun & _).
    apply elem_of_unassigned in Hun as [_ Hfresh].
    inv_ok H. apply order_domain_values_Ok in E as (-> & _).
    apply (try_values_undo _ _ _ _ _ _ _ IH Hfresh) in H.
    unfold undone_or_complete in *. by destruct r.1.
Qed.

(** With an empty domain among the slots that have no entry, [backtrack]
    selects a slot with an empty domain and has no value to try. *)
Lemma backtrack_empty_domain fuel (A : Assignment) s v :
  (∀ u, u ∈ variables cw → is_Some (domains s !! u)) →
  v ∈ variables cw → v ∉ A.*1 → dom_words (domains s) v = [] →
  assignment_complete cw A = false →
  backtrack cw (S fuel) A s =
  Ok (false, A, mkState (domains s) (Entered A (domains s) :: log s)).
Proof.
  intros Hkeys Hv Hfresh Hempty Hcomplete.
  set (s1 := mkState (domains s) (Entered A (domains s) :: log s)).
  assert (v ∈ unassigned cw A) as Hun by by apply elem_of_unassigned.
  destruct (select_unassigned_variable_total cw A s1) as [var Hsel]; [done| |].
  { intros Hnil. rewrite Hnil in Hun. by apply elem_of_nil in Hun. }
  pose proof (select_unassigned_variable_Ok _ _ _ _ _ Hsel) as (_ & Hvar & Hmin).
  apply elem_of_unassigned in Hvar as [Hvar _].
  specialize (Hmin v Hun). simpl in Hmin. rewrite Hempty in Hmin.
  destruct (Hkeys var Hvar) as [ws Hws]. rewrite (dom_words_Some _ _ _ Hws) in Hmin.
  assert (ws = []) as -> by (apply nil_length_inv; simpl in Hmin; lia).
  assert (order_domain_values cw var A s1 = Ok ([], s1)) as Hord.
  { unfold order_domain_values. erewrite M_bind_run; [|reflexivity].
    by rewrite (M_bind_run _ _ _ _ _ (domain_of_run var s1 [] Hws)). }
  cbn [backtrack]. erewrite M_bind_run; [|reflexivity].
  erewrite M_bind_run; [|reflexivity]. rewrite Hcomplete. fold s1.
  rewrite (M_bind_run _ _ _ _ _ Hsel). by rewrite (M_bind_run _ _ _ _ _ Hord).
Qed.

End backtrack_undo.

(** X15: [backtrack] undoes what it tried.  When a call of [backtrack]
    returns [None], the dict it was given holds what it held at the call,
    and the domain store is the one of the call, in whatever state and on
    whatever assignment it was called. *)
Theorem backtrack_none_undoes cw fuel (A : Assignment) s A' s' :
  backtrack cw fuel A s = Ok (false, A', s') → A' = A ∧ domains s' = domains s.
Proof. intros H. by apply backtrack_undo in H. Qed.

Lemma backtrack_none_undoes_witness :
  domains (state_after (backtrack twin_puzzle 3 []) (init_state twin_puzzle)) =
  domains (init_state twin_puzzle).
Proof.
  destruct (backtrack_none_undoes twin_puzzle 3 [] (init_state twin_puzzle) []
              (state_after (backtrack twin_puzzle 3 []) (init_state twin_puzzle))
              ltac:(by_run)) as [_ H].
  exact H.
Defined.

(** X16: soundness of [backtrack] from any consistent assignment.  Called on
    a dict whose keys are slots of the puzzle and that [consistent] accepts,
    a dict that [backtrack] returns is the given one with entries added; it
    has exactly one entry for every slot, meets the distinctness, length and
    overlap constraints, and every added word is from the domain that its
    slot had at the call. *)
Theorem backtrack_sound cw fuel (A : Assignment) s A' s' :
  wf_crossword cw → NoDup A.*1 → A.*1 ⊆ variables cw → consistent cw A = Ok true →
  backtrack cw fuel A s = Ok (true, A', s') →
  (∃ B, A' = A ++ B) ∧ NoDup A'.*1 ∧ (∀ v, v ∈ variables cw ↔ v ∈ A'.*1) ∧
  satisfies cw A' ∧
  ∀ v w, (v, w) ∈ A' → (v, w) ∈ A ∨ w ∈ dom_words (domains s) v.
Proof.
  intros Hwf Hnd Hsub Hcons H.
  apply (backtrack_Ok cw (domains s)) in H; [|done..].
  destruct H as (Hext & Hnd' & Hsub' & Hcons' & Hlen & Hwords). simpl in *.
  split; [done|]. split; [done|]. split; [|split; [by apply consistent_sound|done]].
  intros v. split; [|apply Hsub']. intros Hv.
  assert (A'.*1 ≡ₚ variables cw) as Hperm.
  { apply submseteq_length_Permutation; [by apply NoDup_submseteq|].
    by rewrite length_fmap, Hlen. }
  by rewrite Hperm.
Qed.

Lemma backtrack_sound_witness :
  NoDup tall_solution.*1 ∧ satisfies tall_puzzle tall_solution.
Proof.
  destruct (backtrack_sound tall_puzzle 2 [(across3, "dog"%string)] tall_propagated
              tall_solution
              (state_after (backtrack tall_puzzle 2 [(across3, "dog"%string)])
                 tall_propagated)
              ltac:(by_evaluation) ltac:(by_evaluation) ltac:(by_evaluation)
              ltac:(by_run) ltac:(by_run)) as (_ & Hnd & _ & Hsat & _).
  split; [exact Hnd|exact Hsat].
Defined.

(** X17: [backtrack] terminates.  In a state where every slot has a domain of
    words of its own length, on a dict whose keys are slots of the puzzle
    and whose words have the lengths of their slots, [backtrack] returns: it
    raises nothing, and its recursion is never deeper than the number of
    slots without an entry. *)
Theorem backtrack_terminates cw fuel (A : Assignment) s :
  wf_crossword cw → NoDup A.*1 → A.*1 ⊆ variables cw → fits A →
  domains_ok cw (domains s) → length (unassigned cw A) < fuel →
  ∃ r s', backtrack cw fuel A s = Ok (r, s').
Proof. intros. by apply backtrack_total. Qed.

Lemma backtrack_terminates_witness :
  ∃ r s', backtrack tall_puzzle 3 [] tall_checked = Ok (r, s').
Proof.
  apply backtrack_terminates;
    [by_evaluation|by_evaluation|by_evaluation| |by_evaluation|vm_compute; lia].
  by intros v w ?%elem_of_nil.
Defined.

(** X18: completeness of [backtrack] from a partial assignment.  In the
    state that a successful [ac3()] left, on a dict that is part of a
    solution whose words are all in the domains, [backtrack] returns a dict,
    not [None]. *)
Theorem backtrack_extends_to_solution cw fuel Sol (A : Assignment) s0 s :
  wf_crossword cw → solution cw Sol → NoDup A.*1 → A ⊆ Sol →
  domains_ok cw (domains s0) → ac3 cw None s0 = Ok (true, s) →
  within (domains s) Sol → length (unassigned cw A) < fuel →
  ∃ A' s', backtrack cw fuel A s = Ok (true, A', s').
Proof.
  intros Hwf HSol Hnd Hsub Hok0 Hac3 Hin Hfuel.
  pose proof HSol as (HSnd & HScover & HSvoc & HSwords & HSlen & HSov).
  pose proof (ac3_settles cw _ _ Hwf Hac3) as Hset.
  assert (domains_ok cw (domains s)) as Hok.
  { eapply domains_ok_shrinks; [|done]. by eapply evolves_shrinks, ac3_evolves. }
  assert (A.*1 ⊆ variables cw) as Hkeys.
  { intros v [[v' w] [-> Hvw]]%list_elem_of_fmap. apply HScover, list_elem_of_fmap.
    exists (v', w). split; [done|]. by apply Hsub. }
  destruct (backtrack_total cw fuel A s Hwf Hnd Hkeys) as ([[] A'] & s' & H); [|done..| |].
  - intros v w Hvw. apply HSlen. by apply Hsub.
  - eauto.
  - exfalso. by eapply (backtrack_exhausted cw fuel Sol A).
Qed.

Lemma backtrack_extends_to_solution_witness :
  ∃ A' s', backtrack tall_puzzle 2 [(down4, "coat"%string)] tall_propagated =
           Ok (true, A', s').
Proof.
  apply (backtrack_extends_to_solution tall_puzzle 2 tall_solution _ tall_checked);
    [by_evaluation|by_evaluation|by_evaluation|by_evaluation|by_evaluation|by_run|
     |vm_compute; lia].
  intros v w Hvw.
  repeat (apply elem_of_cons in Hvw as [[= -> ->]|Hvw]; [by_evaluation|]).
  by apply elem_of_nil in Hvw.
Defined.

(** X19: a dead end.  When some slot without an entry has an empty domain
    and the assignment is not complete, [backtrack] returns [None] at once:
    it tries no value, calls neither [consistent] nor [ac3], and leaves the
    dict and the domain store as they are. *)
Theorem backtrack_dead_end cw fuel (A : Assignment) s v :
  (∀ u, u ∈ variables cw → is_Some (domains s !! u)) →
  v ∈ variables cw → v ∉ A.*1 → dom_words (domains s) v = [] →
  assignment_complete cw A = false →
  backtrack cw (S fuel) A s =
  Ok (false, A, mkState (domains s) (Entered A (domains s) :: log s)).
Proof. apply backtrack_empty_domain. Qed.

Lemma backtrack_dead_end_witness :
  ∃ s', backtrack clash_puzzle 1 []
          (state_after (ac3 clash_puzzle None)
             (state_after (enforce_node_consistency clash_puzzle)
                (init_state clash_puzzle))) = Ok (false, [], s').
Proof.
  eexists. apply (backtrack_dead_end clash_puzzle 0 [] _ across3);
    [apply Forall_forall; by_evaluation|by_evaluation|by_evaluation|by_run|by_run].
Defined.

(** ** solve *)

(** X20: [solve] after a failed [ac3].  [solve] ignores what its call of
    [ac3] returns; when that is [False], [solve] still returns [None]:
    [backtrack] selects a slot whose domain is empty. *)
Theorem solve_none_when_ac3_fails cw s1 s2 :
  wf_crossword cw →
  enforce_node_consistency cw (init_state cw) = Ok ((), s1) →
  ac3 cw None s1 = Ok (false, s2) →
  ∃ s', run_solve cw = Ok (None, s').
Proof.
  intros Hwf H1 H2. pose proof H2 as Hfalse. rewrite ac3_unfold in Hfalse.
  apply ac3_loop_false in Hfalse as (x & y & [[i j] Hxy] & Hempty & _).
  destruct (wf_overlap _ _ _ _ _ Hwf Hxy) as (Hx & _).
  destruct (enforce_init cw) as (s1' & H1' & _ & Hok1 & _).
  assert (s1' = s1) as -> by congruence.
  assert (domains_ok cw (domains s2)) as Hok2.
  { eapply domains_ok_shrinks; [|done]. by eapply evolves_shrinks, ac3_evolves. }
  assert (assignment_complete cw [] = false) as Hcomplete.
  { apply bool_decide_eq_false. simpl. destruct (variables cw); [|done].
    by apply elem_of_nil in Hx. }
  eexists. unfold run_solve, solve. rewrite (M_bind_run _ _ _ _ _ H1).
  rewrite (M_bind_run _ _ _ _ _ H2).
  by rewrite (M_bind_run _ _ _ _ _
                (backtrack_empty_domain cw (length (variables cw)) [] s2 x (proj1 Hok2) Hx
                   ltac:(by intros ?%elem_of_nil) (dom_words_Some _ _ _ Hempty) Hcomplete)).
Qed.

Lemma solve_none_when_ac3_fails_witness : ∃ s', run_solve clash_puzzle = Ok (None, s').
Proof.
  apply (solve_none_when_ac3_fails clash_puzzle
           (state_after (enforce_node_consistency clash_puzzle) (init_state clash_puzzle))
           (state_after (ac3 clash_puzzle None)
              (state_after (enforce_node_consistency clash_puzzle)
                 (init_state clash_puzzle))));
    [by_evaluation|by_run|by_run].
Defined.

(** X21: [solve] terminates.  On every puzzle, [solve] returns an assignment
    or [None]: it raises nothing, and the loops of [ac3] and the recursion
    of [backtrack] end within their bounds. *)
Theorem solve_terminates cw : wf_crossword cw → ∃ r s', run_solve cw = Ok (r, s').
Proof.
  intros Hwf. destruct (enforce_init cw) as (s1 & H1 & Hev1 & Hok1 & _).
  destruct (ac3_total cw None s1 Hwf Hok1) as (b & s2 & H2).
  assert (domains_ok cw (domains s2)) as Hok2.
  { eapply domains_ok_shrinks; [|done]. by eapply evolves_shrinks, ac3_evolves. }
  destruct (backtrack_total cw (S (length (variables cw))) [] s2 Hwf)
    as ([returned A] & s3 & H3).
  { constructor. }
  { by intros ? ?%elem_of_nil. }
  { by intros ? ? ?%elem_of_nil. }
  { done. }
  { pose proof (length_filter (λ v, ¬ dict_has [] v) (variables cw)).
    unfold unassigned. lia. }
  exists (if returned then Some A else None), s3.
  unfold run_solve, solve. rewrite (M_bind_run _ _ _ _ _ H1).
  rewrite (M_bind_run _ _ _ _ _ H2). by rewrite (M_bind_run _ _ _ _ _ H3).
Qed.

Lemma solve_terminates_witness : ∃ r s', run_solve twin_puzzle = Ok (r, s').
Proof. apply solve_terminates. by_evaluation. Defined.

(** ** letter_grid *)

Lemma cell_at_inj v k k' : cell_at v k = cell_at v k' → k = k'.
Proof.
  unfold cell_at. intros H.
  pose proof (f_equal fst H) as H1. pose proof (f_equal snd H) as H2.
  destruct (Var.direction v); simpl in *; lia.
Qed.

Lemma get_lt k w c : String.get k w = Some c → k < String.length w.
Proof.
  revert k. induction w as [|a w IH]; intros k H; [by destruct k|].
  destruct k as [|k]; simpl in *; [lia|]. apply IH in H. lia.
Qed.

Lemma letter_on_covers vw p c : letter_on vw p c → covers vw p.
Proof. intros (k & Hk & Hp). exists k. split; [by eapply get_lt|done]. Qed.

Lemma covers_letter_on vw p : covers vw p → ∃ c, letter_on vw p c.
Proof.
  intros (k & Hk & Hp). destruct (get_is_Some k vw.2 Hk) as [c Hc].
  exists c, k. done.
Qed.

Lemma grid_shape_empty height width :
  grid_shape height width (replicate height (replicate width None)).
Proof.
  split; [by rewrite length_replicate|]. apply Forall_replicate.
  by rewrite length_replicate.
Qed.

Lemma grid_get_empty height width p :
  in_grid height width p →
  grid_get (replicate height (replicate width None)) p = Some None.
Proof.
  intros [H1 H2]. unfold grid_get. rewrite lookup_replicate_2 by done. simpl.
  by rewrite lookup_replicate_2.
Qed.

Section letter_grid.
Context (height width : nat).

Lemma grid_set_Ok g i j c :
  grid_shape height width g → in_grid height width (i, j) →
  ∃ g', grid_set g i j c = Ok g' ∧ grid_shape height width g' ∧
        grid_get g' (i, j) = Some (Some c) ∧
        ∀ p, p ≠ (i, j) → grid_get g' p = grid_get g p.
Proof.
  intros [Hh Hw] [Hi Hj]. simpl in *.
  destruct (lookup_lt_is_Some_2 g i) as [row Hrow]; [lia|].
  assert (length row = width) as Hlen by by eapply (Forall_lookup_1 _ _ _ _ Hw).
  unfold grid_set. rewrite Hrow. rewrite decide_True by lia.
  eexists. split; [done|]. split; [split|split].
  - by rewrite length_insert.
  - apply Forall_insert; [done|]. by rewrite length_insert.
  - unfold grid_get. simpl. rewrite list_lookup_insert_eq by lia. simpl.
    apply list_lookup_insert_eq. lia.
  - intros [i' j'] Hne. unfold grid_get. simpl.
    destruct (decide (i' = i)) as [->|Hi'].
    + rewrite list_lookup_insert_eq by lia. rewrite Hrow. simpl.
      apply list_lookup_insert_ne. congruence.
    + by rewrite list_lookup_insert_ne.
Qed.

Lemma grid_set_out g i j c :
  grid_shape height width g → ¬ in_grid height width (i, j) →
  grid_set g i j c = Raise IndexError.
Proof.
  intros [Hh Hw] Hout. unfold grid_set. destruct (g !! i) as [row|] eqn:Hrow; [|done].
  assert (length row = width) as Hlen by by eapply (Forall_lookup_1 _ _ _ _ Hw).
  apply lookup_lt_Some in Hrow. rewrite decide_False; [done|].
  intros Hj. apply Hout. split; simpl; lia.
Qed.

Lemma write_letters_Ok v wd ks g :
  grid_shape height width g →
  (∀ k, k ∈ ks → k < String.length wd ∧ in_grid height width (cell_at v k)) →
  ∃ g', write_letters v wd ks g = Ok g' ∧ grid_shape height width g' ∧
    (∀ p, (∀ k, k ∈ ks → cell_at v k ≠ p) → grid_get g' p = grid_get g p) ∧
    (∀ k c, k ∈ ks → String.get k wd = Some c →
       grid_get g' (cell_at v k) = Some (Some c)).
Proof.
  revert g. induction ks as [|k0 ks IH]; intros g Hshape Hin.
  - exists g. split; [done|]. split; [done|]. split; [done|].
    by intros k c ?%elem_of_nil.
  - destruct (Hin k0) as [Hlen Hgrid]; [by left|].
    destruct (get_is_Some _ _ Hlen) as [c0 Hc0].
    destruct (grid_set_Ok g (cell_at v k0).1 (cell_at v k0).2 c0 Hshape)
      as (g1 & Hset & Hshape1 & Hhit & Hmiss); [by destruct (cell_at v k0)|].
    destruct (IH g1 Hshape1) as (g' & Hrun & Hshape' & Hkeep & Hread).
    { intros k Hk. apply Hin. by right. }
    exists g'. split.
    { cbn [write_letters]. rewrite (Outcome_bind_run _ _ _ (proj2 (getitem_Ok _ _ _) Hc0)).
      change (grid_set g (cell_at v k0).1 (cell_at v k0).2 c0 ≫= write_letters v wd ks = Ok g').
      by rewrite (Outcome_bind_run _ _ _ Hset). }
    split; [done|]. split.
    + intros p Hp. rewrite Hkeep by (intros k Hk; apply Hp; by right).
      apply Hmiss. intros ->. apply (Hp k0); [by left|]. by destruct (cell_at v k0).
    + intros k c Hk Hc. destruct (decide (k ∈ ks)) as [Hks|Hks]; [by apply Hread|].
      apply elem_of_cons in Hk as [->|?]; [|done].
      rewrite Hkeep.
      * rewrite <-(surjective_pairing (cell_at v k0)) in Hhit. rewrite Hhit. congruence.
      * intros k Hk Heq. apply cell_at_inj in Heq as ->. done.
Qed.

Lemma write_letters_out v wd ks g k :
  grid_shape height width g → (∀ k, k ∈ ks → k < String.length wd) →
  k ∈ ks → ¬ in_grid height width (cell_at v k) →
  write_letters v wd ks g = Raise IndexError.
Proof.
  revert g. induction ks as [|k0 ks IH]; intros g Hshape Hlen Hk Hout.
  - by apply elem_of_nil in Hk.
  - destruct (get_is_Some k0 wd) as [c0 Hc0]; [apply Hlen; by left|].
    cbn [write_letters]. rewrite (Outcome_bind_run _ _ _ (proj2 (getitem_Ok _ _ _) Hc0)).
    change (grid_set g (cell_at v k0).1 (cell_at v k0).2 c0 ≫= write_letters v wd ks
            = Raise IndexError).
    destruct (decide (in_grid height width (cell_at v k0))) as [Hin|Hin].
    + destruct (grid_set_Ok g (cell_at v k0).1 (cell_at v k0).2 c0 Hshape)
        as (g1 & Hset & Hshape1 & _); [by destruct (cell_at v k0)|].
      rewrite (Outcome_bind_run _ _ _ Hset). apply IH; [done| | |done].
      * intros k' Hk'. apply Hlen. by right.
      * apply elem_of_cons in Hk as [->|?]; done.
    + rewrite grid_set_out; [done|done|]. by destruct (cell_at v k0).
Qed.

Lemma write_words_Ok items g :
  grid_shape height width g →
  (∀ vw p, vw ∈ items → covers vw p → in_grid height width p) →
  ∃ g', write_words items g = Ok g' ∧ grid_shape height width g' ∧
    (∀ p, (∀ vw, vw ∈ items → ¬ covers vw p) → grid_get g' p = grid_get g p) ∧
    (∀ A1 vw A2 p c, items = A1 ++ vw :: A2 → letter_on vw p c →
       (∀ vw', vw' ∈ A2 → ¬ covers vw' p) → grid_get g' p = Some (Some c)).
Proof.
  revert g. induction items as [|[v wd] items IH]; intros g Hshape Hin.
  - exists g. split; [done|]. split; [done|]. split; [done|].
    intros A1 vw A2 p c Heq. by destruct A1.
  - destruct (write_letters_Ok v wd (seq 0 (String.length wd)) g Hshape)
      as (g1 & Hrun1 & Hshape1 & Hkeep1 & Hread1).
    { intros k Hk%elem_of_seq. split; [lia|]. apply (Hin (v, wd)); [by left|].
      exists k. split; [simpl; lia|done]. }
    destruct (IH g1 Hshape1) as (g' & Hrun & Hshape' & Hkeep & Hread).
    { intros vw p Hvw. apply Hin. by right. }
    exists g'. split; [cbn [write_words]; by rewrite (Outcome_bind_run _ _ _ Hrun1)|].
    split; [done|]. split.
    + intros p Hp. rewrite Hkeep by (intros vw Hvw; apply Hp; by right).
      apply Hkeep1. intros k Hk%elem_of_seq Heq. apply (Hp (v, wd)); [by left|].
      exists k. split; [simpl; lia|done].
    + intros A1 vw A2 p c Heq Hletter Hlast. destruct A1 as [|a A1]; simplify_eq/=.
      * rewrite Hkeep by done. destruct Hletter as (k & Hk & <-). simpl in *.
        apply Hread1; [|done]. apply elem_of_seq. apply get_lt in Hk. lia.
      * by eapply Hread.
Qed.

Lemma write_words_out items g vw p :
  grid_shape height width g → vw ∈ items → covers vw p → ¬ in_grid height width p →
  write_words items g = Raise IndexError.
Proof.
  revert g. induction items as [|[v wd] items IH]; intros g Hshape Hvw Hcov Hout.
  - by apply elem_of_nil in Hvw.
  - cbn [write_words].
    destruct (decide (Forall (λ k, in_grid height width (cell_at v k))
                        (seq 0 (String.length wd)))) as [Hall|Hsome].
    + rewrite Forall_forall in Hall.
      destruct (write_letters_Ok v wd (seq 0 (String.length wd)) g Hshape)
        as (g1 & Hrun1 & Hshape1 & _).
      { intros k Hk. split; [apply elem_of_seq in Hk; lia|by apply Hall]. }
      rewrite (Outcome_bind_run _ _ _ Hrun1). apply IH; [done| |done..].
      apply elem_of_cons in Hvw as [->|?]; [|done].
      destruct Hcov as (k & Hk & <-). destruct Hout. apply Hall, elem_of_seq. simpl in *. lia.
    + apply not_Forall_Exists in Hsome; [|apply _].
      apply Exists_exists in Hsome as (k & Hk & Hkout).
      rewrite (write_letters_out v wd _ g k); [done|done| |done|done].
      intros k' Hk'%elem_of_seq. lia.
Qed.

Lemma letter_grid_bounds (A : Assignment) g :
  letter_grid height width A = Ok g →
  ∀ vw p, vw ∈ A → covers vw p → in_grid height width p.
Proof.
  intros H vw p Hvw Hcov. destruct (decide (in_grid height width p)) as [|Hout]; [done|].
  unfold letter_grid in H.
  by rewrite (write_words_out A _ vw p (grid_shape_empty _ _) Hvw Hcov Hout) in H.
Qed.

(** What a grid that [letter_grid] returns holds. *)
Lemma letter_grid_Ok (A : Assignment) g :
  letter_grid height width A = Ok g →
  grid_shape height width g ∧
  (∀ p, in_grid height width p → (∀ vw, vw ∈ A → ¬ covers vw p) →
     grid_get g p = Some None) ∧
  (∀ A1 vw A2 p c, A = A1 ++ vw :: A2 → letter_on vw p c →
     (∀ vw', vw' ∈ A2 → ¬ covers vw' p) → grid_get g p = Some (Some c)).
Proof.
  intros H. pose proof (letter_grid_bounds _ _ H) as Hin.
  destruct (write_words_Ok A _ (grid_shape_empty _ _) Hin)
    as (g' & Hrun & Hshape & Hkeep & Hread).
  unfold letter_grid in H. replace g with g' by congruence.
  split; [done|]. split; [|done].
  intros p Hp Hnone. rewrite (Hkeep p Hnone). by apply grid_get_empty.
Qed.

Lemma last_covering (A : Assignment) vw p :
  vw ∈ A → covers vw p →
  ∃ A1 vw' A2, A = A1 ++ vw' :: A2 ∧ covers vw' p ∧ ∀ u, u ∈ A2 → ¬ covers u p.
Proof.
  revert vw. induction A as [|a A IH]; intros vw Hvw Hcov; [by apply elem_of_nil in Hvw|].
  destruct (decide (Exists (λ u, covers u p) A)) as [Hlater|Hnone].
  - apply Exists_exists in Hlater as (u & Hu & Hucov).
    destruct (IH u Hu Hucov) as (A1 & vw' & A2 & -> & Hcov' & Hlast).
    by exists (a :: A1), vw', A2.
  - exists [], a, A. split; [done|].
    assert (∀ u, u ∈ A → ¬ covers u p) as Hlast.
    { intros u Hu Hucov. apply Hnone, Exists_exists. eauto. }
    split; [|done]. apply elem_of_cons in Hvw as [->|Hvw]; [done|]. by destruct (Hlast vw).
Qed.

Lemma letter_grid_agreeing (A : Assignment) g v wd k c :
  letters_agree A → letter_grid height width A = Ok g →
  (v, wd) ∈ A → String.get k wd = Some c →
  grid_get g (cell_at v k) = Some (Some c).
Proof.
  intros Hagree H Hvw Hc.
  assert (letter_on (v, wd) (cell_at v k) c) as Hletter by by exists k.
  destruct (last_covering A (v, wd) (cell_at v k) Hvw (letter_on_covers _ _ _ Hletter))
    as (A1 & vw' & A2 & HA & Hcov & Hlast).
  destruct (covers_letter_on _ _ Hcov) as [c' Hletter'].
  assert (c' = c) as ->.
  { apply (Hagree vw' (v, wd) (cell_at v k)); [|done..]. rewrite HA.
    apply elem_of_app. right. by left. }
  destruct (letter_grid_Ok A g H) as (_ & _ & Hread). by eapply Hread.
Qed.

End letter_grid.

Lemma solution_letters_agree cw (A : Assignment) :
  overlaps_cover_cells cw → solution cw A → letters_agree A.
Proof.
  intros Hgeo (Hnd & Hcover & _ & _ & Hlen & Hov) [x wx] [y wy] p c c' Hx Hy.
  intros (kx & Hkx & Hpx) (ky & Hky & Hpy). simpl in *.
  destruct (decide (x = y)) as [->|Hne].
  - assert (wx = wy) as -> by by eapply dict_unique.
    assert (kx = ky) as -> by (apply (cell_at_inj y); congruence). congruence.
  - assert (overlaps_get cw x y = Some (kx, ky)) as Hxy.
    { apply Hgeo; [| |done| | |congruence].
      - apply Hcover, list_elem_of_fmap. by exists (x, wx).
      - apply Hcover, list_elem_of_fmap. by exists (y, wy).
      - rewrite <-(Hlen x wx Hx). by eapply get_lt.
      - rewrite <-(Hlen y wy Hy). by eapply get_lt. }
    destruct (Hov x y wx wy kx ky Hx Hy Hxy) as (a & Ha & Ha'). congruence.
Qed.

(** The overlap table of [tall_puzzle] has the one cell that its slots
    share. *)
Lemma tall_puzzle_cover : overlaps_cover_cells tall_puzzle.
Proof.
  intros x y kx ky Hx Hy Hne Hkx Hky Hcell.
  apply elem_of_cons in Hx as [->|Hx]; [|apply list_elem_of_singleton in Hx as ->];
    (apply elem_of_cons in Hy as [->|Hy]; [|apply list_elem_of_singleton in Hy as ->]);
    try done;
    pose proof (f_equal fst Hcell) as H1; pose proof (f_equal snd Hcell) as H2;
    vm_compute in H1, H2; simpl in *.
  - assert (kx = 1) as -> by lia. assert (ky = 1) as -> by lia. by_run.
  - assert (kx = 1) as -> by lia. assert (ky = 1) as -> by lia. by_run.
Qed.

(** X22: the shape of the grid.  A grid that [letter_grid] returns has
    [height] rows of [width] cells each. *)
Theorem letter_grid_shape height width (A : Assignment) g :
  letter_grid height width A = Ok g →
  length g = height ∧ Forall (λ row, length row = width) g.
Proof. intros H. by destruct (letter_grid_Ok height width A g H) as [Hshape _]. Qed.

Lemma letter_grid_shape_witness : length tall_grid = 4.
Proof.
  destruct (letter_grid_shape 4 3 tall_solution tall_grid ltac:(by_run)) as [H _].
  exact H.
Defined.

(** X23: when [letter_grid] returns.  It returns a grid exactly when every
    letter of every assigned word, laid out from the first cell of its slot
    in the slot's direction, falls inside the grid. *)
Theorem letter_grid_in_bounds height width (A : Assignment) :
  (∃ g, letter_grid height width A = Ok g) ↔
  ∀ vw p, vw ∈ A → covers vw p → in_grid height width p.
Proof.
  split.
  - intros [g H]. by eapply letter_grid_bounds.
  - intros Hin.
    destruct (write_words_Ok height width A _ (grid_shape_empty _ _) Hin)
      as (g & Hrun & _).
    by exists g.
Qed.

Lemma letter_grid_in_bounds_witness : in_grid 4 3 (cell_at down4 3).
Proof.
  assert (letter_grid 4 3 tall_solution = Ok tall_grid) as H by by_run.
  apply (proj1 (letter_grid_in_bounds 4 3 tall_solution)
           (ex_intro (λ g, letter_grid 4 3 tall_solution = Ok g) tall_grid H)
           (down4, "coat"%string));
    by_evaluation.
Defined.

(** X24: a word that runs off the grid.  When some letter of an assigned
    word falls outside the grid, [letter_grid] raises [IndexError]. *)
Theorem letter_grid_index_error height width (A : Assignment) vw p :
  vw ∈ A → covers vw p → ¬ in_grid height width p →
  letter_grid height width A = Raise IndexError.
Proof.
  intros Hvw Hcov Hout. unfold letter_grid.
  by apply (write_words_out height width A _ vw p (grid_shape_empty _ _)).
Qed.

Lemma letter_grid_index_error_witness :
  letter_grid 3 3 tall_solution = Raise IndexError.
Proof.
  apply (letter_grid_index_error 3 3 tall_solution (down4, "coat"%string)
           (cell_at down4 3)); by_evaluation.
Defined.

(** X25: the last entry wins.  A cell of the grid holds the letter that the
    last entry of the dict covering the cell puts there. *)
Theorem letter_grid_last_writer height width (A A1 A2 : Assignment) vw g p c :
  letter_grid height width A = Ok g → A = A1 ++ vw :: A2 →
  letter_on vw p c → (∀ u, u ∈ A2 → ¬ covers u p) →
  grid_get g p = Some (Some c).
Proof.
  intros H HA Hletter Hlast.
  destruct (letter_grid_Ok height width A g H) as (_ & _ & Hread). by eapply Hread.
Qed.

Lemma letter_grid_last_writer_witness :
  grid_get (match letter_grid 4 3 [(across3, "cat"); (down4, "coat")]%string with
            | Ok letters => letters
            | _ => []
            end) (1, 1) = Some (String.get 1 "coat").
Proof.
  apply (letter_grid_last_writer 4 3 [(across3, "cat"); (down4, "coat")]%string
           [(across3, "cat"%string)] [] (down4, "coat"%string));
    [by_run|reflexivity|by exists 1|by intros u ?%elem_of_nil].
Defined.

(** X26: blank cells.  A cell inside the grid that no assigned word covers
    is [None] in the grid that [letter_grid] returns. *)
Theorem letter_grid_blank height width (A : Assignment) g p :
  letter_grid height width A = Ok g → in_grid height width p →
  (∀ vw, vw ∈ A → ¬ covers vw p) → grid_get g p = Some None.
Proof.
  intros H Hp Hnone.
  destruct (letter_grid_Ok height width A g H) as (_ & Hblank & _). by apply Hblank.
Qed.

Lemma letter_grid_blank_witness : grid_get tall_grid (0, 0) = Some None.
Proof.
  apply (letter_grid_blank 4 3 tall_solution); [by_run|by_evaluation|].
  apply Forall_forall. by_evaluation.
Defined.

(** X27: reading the words back.  When entries that share a cell have the
    same letter there, every cell of every slot in the grid that
    [letter_grid] returns holds the letter of the slot's word. *)
Theorem letter_grid_reads_back height width (A : Assignment) g v wd k c :
  letters_agree A → letter_grid height width A = Ok g →
  (v, wd) ∈ A → String.get k wd = Some c →
  grid_get g (cell_at v k) = Some (Some c).
Proof. apply letter_grid_agreeing. Qed.

Lemma letter_grid_reads_back_witness :
  grid_get tall_grid (cell_at across3 1) = Some (String.get 1 "dog").
Proof.
  apply (letter_grid_reads_back 4 3 tall_solution tall_grid across3 "dog");
    [|by_run|by_evaluation|reflexivity].
  apply (solution_letters_agree tall_puzzle); [apply tall_puzzle_cover|by_evaluation].
Defined.

(** X28: the grid of what [solve] returns.  In a puzzle whose overlap table
    has every cell that two slots share, the grid that [letter_grid] returns
    for an assignment returned by [solve] spells, along every slot, the word
    assigned to it. *)
Theorem solve_then_letter_grid cw height width (A : Assignment) s' g v wd k c :
  wf_crossword cw → overlaps_cover_cells cw →
  run_solve cw = Ok (Some A, s') → letter_grid height width A = Ok g →
  (v, wd) ∈ A → String.get k wd = Some c →
  grid_get g (cell_at v k) = Some (Some c).
Proof.
  intros Hwf Hgeo Hrun. apply letter_grid_agreeing.
  apply (solution_letters_agree cw); [done|]. by eapply solve_sound.
Qed.

Lemma solve_then_letter_grid_witness :
  grid_get tall_grid (cell_at down4 3) = Some (String.get 3 "coat").
Proof.
  apply (solve_then_letter_grid tall_puzzle 4 3 tall_solution
           (state_after (solve tall_puzzle) (init_state tall_puzzle))
           tall_grid down4 "coat");
    [by_evaluation|apply tall_puzzle_cover|by_run|by_run|by_evaluation|reflexivity].
Defined.
